(** * Zipf (zeta) variate generators of opencog/util/zipf.h

    The header defines two class templates, [zipf_distribution] (rejection
    inversion, constant memory) and [zipf_table_distribution] (a table fed to
    [std::discrete_distribution]).  Both are parameterised by an integer
    result type [IntType] and a floating-point type [RealType].

    The embedding keeps that shape.  [RealType] is a type equipped with the
    operations the header uses ([RealOps]); the random engine and the two
    standard distributions the header delegates to are a second interface
    ([StdRandom]).  Everything that only depends on the way the header
    combines these operations is proved for every instance, so it holds for
    IEEE doubles as well as for exact reals.  Statements that need actual
    values of [pow], [log] and [exp] are proved for the instance [R_ops] of
    exact real arithmetic, which has no rounding and no underflow; what
    rounding does to them is shown on the instance [double_ops] of IEEE
    binary64, for every implementation of the functions of <cmath>.

    [IntType] is modelled by [Z]: results are the mathematical integers, and
    the conversions between the two types are operations of [RealOps].  A
    conversion whose value does not fit [IntType] is undefined in C++ and
    has no counterpart here. *)

From Stdlib Require Import ZArith QArith List Bool String Lia Reals Lra.
From Stdlib Require Floats.
Import ListNotations.

(** ** Arithmetic interface of the template parameter [RealType] *)

Class RealOps (RealType : Type) : Type := {
  (** a floating literal of the source, given by its decimal value *)
  lit : Q -> RealType;
  (** implicit conversion [IntType -> RealType] *)
  of_int : Z -> RealType;
  (** implicit conversion [RealType -> IntType] *)
  to_int : RealType -> Z;
  rt_add : RealType -> RealType -> RealType;
  rt_sub : RealType -> RealType -> RealType;
  rt_mul : RealType -> RealType -> RealType;
  rt_div : RealType -> RealType -> RealType;
  rt_neg : RealType -> RealType;
  rt_lt : RealType -> RealType -> bool;
  rt_le : RealType -> RealType -> bool;
  (** the function the unqualified call [abs(oms)] of the constructor of
      [zipf_distribution] selects.  The header includes <cmath>, <limits>,
      <random> and <cassert>; with libstdc++ these declare the
      floating-point overloads of [abs] in namespace [std] only, and the
      one [abs] of the global namespace is [int abs(int)] of <stdlib.h>.
      The other calls are qualified ([std::abs]). *)
  abs : RealType -> RealType;
  std_abs : RealType -> RealType;
  std_round : RealType -> RealType;
  std_pow : RealType -> RealType -> RealType;
  std_log : RealType -> RealType;
  std_log1p : RealType -> RealType;
  std_exp : RealType -> RealType;
  std_expm1 : RealType -> RealType
}.

Declare Scope rt_scope.
Delimit Scope rt_scope with rt.
Notation "x + y" := (rt_add x y) : rt_scope.
Notation "x - y" := (rt_sub x y) : rt_scope.
Notation "x * y" := (rt_mul x y) : rt_scope.
Notation "x / y" := (rt_div x y) : rt_scope.
Notation "- x" := (rt_neg x) : rt_scope.
Notation "x <? y" := (rt_lt x y) : rt_scope.
Notation "x <=? y" := (rt_le x y) : rt_scope.
Notation "x >? y" := (rt_lt y x) : rt_scope.
Notation "x >=? y" := (rt_le y x) : rt_scope.

(** ** The part of <random> the header delegates to

    [mt19937] is the engine state.  A call [dist(rng)] of a
    [std::uniform_real_distribution] built with [(a, b)] is
    [uniform_real_draw a b rng]; a call of a [std::discrete_distribution]
    built from the weights [ws] is [discrete_draw ws rng].  Both return the
    variate and the advanced engine.  The distribution objects themselves
    carry nothing but the parameters they were built with. *)

Class StdRandom (RealType : Type) : Type := {
  mt19937 : Type;
  uniform_real_draw : RealType -> RealType -> mt19937 -> RealType * mt19937;
  discrete_draw : list RealType -> mt19937 -> Z * mt19937
}.

Record uniform_real_distribution (RealType : Type) : Type := {
  dist_a : RealType;
  dist_b : RealType
}.
Arguments dist_a {RealType} _.
Arguments dist_b {RealType} _.

Record discrete_distribution (RealType : Type) : Type := {
  weights : list RealType
}.
Arguments weights {RealType} _.

(** ** Exceptions *)

Inductive exception : Type :=
| runtime_error (what : string).

Inductive result (A : Type) : Type :=
| Ok (a : A)
| Throw (e : exception).
Arguments Ok {A} a.
Arguments Throw {A} e.

Definition is_ok {A : Type} (r : result A) : bool :=
  match r with Ok _ => true | Throw _ => false end.

(** ** Recording the divisors of a computation

    A value together with the list of the divisors of every division that
    was evaluated to obtain it. *)

Definition Divs (RealType A : Type) : Type := (A * list RealType)%type.

Definition dret {RealType A : Type} (a : A) : Divs RealType A := (a, []).

Definition dbind {RealType A B : Type}
    (m : Divs RealType A) (f : A -> Divs RealType B) : Divs RealType B :=
  let '(a, l1) := m in
  let '(b, l2) := f a in
  (b, l1 ++ l2).

Definition ddiv {RealType : Type} {ops : RealOps RealType}
    (x y : RealType) : Divs RealType RealType :=
  (rt_div x y, [y]).

Notation "x <- m ;; k" := (dbind m (fun x => k))
  (at level 61, m at next level, right associativity).

(** ** class zipf_distribution *)

Module zipf_distribution.
Section Template.
Context {RealType : Type} {ops : RealOps RealType} {rnd : StdRandom RealType}.
Local Open Scope rt_scope.

Record t : Type := {
  n : Z;            (* Number of elements *)
  _s : RealType;    (* Exponent *)
  _q : RealType;    (* Deformation *)
  oms : RealType;   (* 1-s *)
  spole : bool;     (* true if s near 1.0 *)
  rvs : RealType;   (* 1/(1-s) *)
  H_x1 : RealType;  (* H(x_1) *)
  H_n : RealType;   (* H(n) *)
  cut : RealType;   (* rejection cut *)
  dist : uniform_real_distribution RealType  (* [H(x_1), H(n)] *)
}.

Definition epsilon : RealType := lit 2e-5.

(** (exp(x) - 1) / x.  The header declares this helper on [double]; it is
    written on [RealType] like its sibling. *)
Definition expxm1bx (x : RealType) : RealType :=
  if std_abs x >? epsilon then std_expm1 x / x
  else lit 1.0
       + x / lit 2.0 * (lit 1.0 + x / lit 3.0 * (lit 1.0 + x / lit 4.0)).

(** log(1 + x) / x *)
Definition log1pxbx (x : RealType) : RealType :=
  if std_abs x >? epsilon then std_log1p x / x
  else lit 1.0 - x * ((of_int 1 / lit 2.0)
                      - x * ((of_int 1 / lit 3.0) - x * (of_int 1 / lit 4.0))).

(** The member functions [h], [H] and [H_inv] read the members [_s], [_q],
    [oms], [spole] and [rvs] only.  The constructor calls them while the
    later members are still being initialised, so each is first written as
    a function of the members it reads. *)

Definition h_at (s q : RealType) (x : RealType) : RealType :=
  std_pow (x + q) (- s).

Definition H_at (q oms : RealType) (spole : bool) (x : RealType) : RealType :=
  if negb spole then std_pow (x + q) oms / oms
  else
    let log_xpq := std_log (x + q) in
    log_xpq * expxm1bx (oms * log_xpq).

Definition H_inv_at (q oms : RealType) (spole : bool) (rvs : RealType)
    (y : RealType) : RealType :=
  if negb spole then std_pow (y * oms) rvs - q
  else std_exp (y * log1pxbx (oms * y)) - q.

Definition h (this : t) (x : RealType) : RealType :=
  h_at (_s this) (_q this) x.

Definition H (this : t) (x : RealType) : RealType :=
  H_at (_q this) (oms this) (spole this) x.

Definition H_inv (this : t) (y : RealType) : RealType :=
  H_inv_at (_q this) (oms this) (spole this) (rvs this) y.

(** The member initialiser list, in declaration order. *)
Definition init_members (n : Z) (s q : RealType) : t :=
  let oms := lit 1.0 - s in
  let spole := abs oms <? epsilon in
  let rvs := if spole then lit 0.0 else lit 1.0 / oms in
  let H_x1 := H_at q oms spole (lit 1.5) - h_at s q (lit 1.0) in
  let H_n := H_at q oms spole (of_int n + lit 0.5) in
  let cut :=
    lit 1.0 - H_inv_at q oms spole rvs
                (H_at q oms spole (lit 1.5) - h_at s q (lit 1.0)) in
  {| n := n; _s := s; _q := q; oms := oms; spole := spole; rvs := rvs;
     H_x1 := H_x1; H_n := H_n; cut := cut;
     dist := {| dist_a := H_x1; dist_b := H_n |} |}.

(** The constructor: the initialiser list, then the body. *)
Definition construct (n : Z) (s q : RealType) : result t :=
  let this := init_members n s q in
  if - lit 0.5 >=? q
  then Throw (runtime_error
                "Range error: Parameter q must be greater than -0.5!")
  else Ok this.

Definition reset (this : t) : t := this.

(** [operator()].  The loop [while (true)] has no bound; [fuel] is the
    number of iterations the model is allowed, and [None] means that they
    were all rejections.  The result carries the object after the call and
    the advanced engine. *)
Fixpoint operator_call (fuel : nat) (this : t) (rng : mt19937)
    : option (Z * t * mt19937) :=
  match fuel with
  | O => None
  | S fuel' =>
      let '(u, rng) :=
        uniform_real_draw (dist_a (dist this)) (dist_b (dist this)) rng in
      let x := H_inv this u in
      let k := to_int (std_round x) in
      if of_int k - x <=? cut this then Some (k, this, rng)
      else if u >=? H this (of_int k + lit 0.5) - h this (of_int k)
           then Some (k, this, rng)
           else operator_call fuel' this rng
  end.

Definition s (this : t) : RealType := _s this.
Definition q (this : t) : RealType := _q this.
Definition min (this : t) : Z := 1%Z.
Definition max (this : t) : Z := n this.

(** *** The same code, recording every divisor *)

Definition expxm1bx_divs (x : RealType) : Divs RealType RealType :=
  if std_abs x >? epsilon then ddiv (std_expm1 x) x
  else
    d4 <- ddiv x (lit 4.0) ;;
    d3 <- ddiv x (lit 3.0) ;;
    d2 <- ddiv x (lit 2.0) ;;
    dret (lit 1.0 + d2 * (lit 1.0 + d3 * (lit 1.0 + d4))).

Definition log1pxbx_divs (x : RealType) : Divs RealType RealType :=
  if std_abs x >? epsilon then ddiv (std_log1p x) x
  else
    c2 <- ddiv (of_int 1) (lit 2.0) ;;
    c3 <- ddiv (of_int 1) (lit 3.0) ;;
    c4 <- ddiv (of_int 1) (lit 4.0) ;;
    dret (lit 1.0 - x * (c2 - x * (c3 - x * c4))).

Definition H_at_divs (q oms : RealType) (spole : bool) (x : RealType)
    : Divs RealType RealType :=
  if negb spole then ddiv (std_pow (x + q) oms) oms
  else
    let log_xpq := std_log (x + q) in
    e <- expxm1bx_divs (oms * log_xpq) ;;
    dret (log_xpq * e).

Definition H_inv_at_divs (q oms : RealType) (spole : bool) (rvs : RealType)
    (y : RealType) : Divs RealType RealType :=
  if negb spole then dret (std_pow (y * oms) rvs - q)
  else
    l <- log1pxbx_divs (oms * y) ;;
    dret (std_exp (y * l) - q).

Definition init_members_divs (n : Z) (s q : RealType) : Divs RealType t :=
  let oms := lit 1.0 - s in
  let spole := abs oms <? epsilon in
  rvs <- (if spole then dret (lit 0.0) else ddiv (lit 1.0) oms) ;;
  a <- H_at_divs q oms spole (lit 1.5) ;;
  let H_x1 := a - h_at s q (lit 1.0) in
  H_n <- H_at_divs q oms spole (of_int n + lit 0.5) ;;
  b <- H_at_divs q oms spole (lit 1.5) ;;
  c <- H_inv_at_divs q oms spole rvs (b - h_at s q (lit 1.0)) ;;
  let cut := lit 1.0 - c in
  dret {| n := n; _s := s; _q := q; oms := oms; spole := spole; rvs := rvs;
          H_x1 := H_x1; H_n := H_n; cut := cut;
          dist := {| dist_a := H_x1; dist_b := H_n |} |}.

(** One turn of the loop of [operator()]: the divisors it evaluates, for
    the variate [u] that [dist(rng)] returned. *)
Definition iteration_divs (this : t) (u : RealType) : Divs RealType bool :=
  x <- H_inv_at_divs (_q this) (oms this) (spole this) (rvs this) u ;;
  let k := to_int (std_round x) in
  if of_int k - x <=? cut this then dret true
  else
    a <- H_at_divs (_q this) (oms this) (spole this) (of_int k + lit 0.5) ;;
    dret (u >=? a - h this (of_int k)).

(** *** The draw algorithm as the specification words it

    Repeat until acceptance: draw [u] uniformly from [[H_x1, H_n]]; compute
    [x = H_inv u] and [k = round x]; accept [k] if [k - x <= cut]; otherwise
    accept [k] if [u >= H (k + 0.5) - h k]; otherwise loop. *)
Inductive rejection_inversion (this : t) : mt19937 -> Z -> mt19937 -> Prop :=
| ri_fast_accept rng u rng' x k :
    uniform_real_draw (H_x1 this) (H_n this) rng = (u, rng') ->
    x = H_inv this u ->
    k = to_int (std_round x) ->
    (of_int k - x <=? cut this) = true ->
    rejection_inversion this rng k rng'
| ri_squeeze_accept rng u rng' x k :
    uniform_real_draw (H_x1 this) (H_n this) rng = (u, rng') ->
    x = H_inv this u ->
    k = to_int (std_round x) ->
    (of_int k - x <=? cut this) = false ->
    (u >=? H this (of_int k + lit 0.5) - h this (of_int k)) = true ->
    rejection_inversion this rng k rng'
| ri_reject rng u rng' x k k' rng'' :
    uniform_real_draw (H_x1 this) (H_n this) rng = (u, rng') ->
    x = H_inv this u ->
    k = to_int (std_round x) ->
    (of_int k - x <=? cut this) = false ->
    (u >=? H this (of_int k + lit 0.5) - h this (of_int k)) = false ->
    rejection_inversion this rng' k' rng'' ->
    rejection_inversion this rng k' rng''.

End Template.
End zipf_distribution.

(** ** class zipf_table_distribution *)

Module zipf_table_distribution.
Section Template.
Context {RealType : Type} {ops : RealOps RealType} {rnd : StdRandom RealType}.
Local Open Scope rt_scope.

Record t : Type := {
  _pdf : list RealType;                   (* Prob. distribution *)
  _n : Z;                                 (* Number of elements *)
  _s : RealType;                          (* Exponent *)
  _q : RealType;                          (* Hurwicz q *)
  _dist : discrete_distribution RealType  (* Draw generator *)
}.

(** The loop [for (IntType i=1; i<=n; i++)] of [init], entered with [todo]
    turns left; each turn appends one weight to [_pdf]. *)
Fixpoint init_loop (todo : nat) (i : Z) (s q : RealType)
    (_pdf : list RealType) : list RealType :=
  match todo with
  | O => _pdf
  | S todo' =>
      init_loop todo' (i + 1)%Z s q (_pdf ++ [std_pow (q + of_int i) (- s)])
  end.

(** Initialize the probability mass function.  [init] works on the member
    [_pdf], which is passed in and returned; [reserve] changes no element.
    The loop runs for [i = 1 .. n], which is [Z.to_nat n] turns for every
    [n] below the largest value of [IntType]. *)
Definition init (_pdf : list RealType) (n : Z) (s q : RealType)
    : list RealType * Z :=
  let _pdf := _pdf ++ [lit 0.0] in
  (init_loop (Z.to_nat n) 1%Z s q _pdf, n).

(** The constructor.  [_pdf] is declared first, so it is the empty vector
    when [init] runs, and it is filled when [_dist] copies it. *)
Definition construct (n : Z) (s q : RealType) : result t :=
  let '(pdf, n') := init [] n s q in
  Ok {| _pdf := pdf; _n := n'; _s := s; _q := q;
        _dist := {| weights := pdf |} |}.

Definition reset (this : t) : t := this.

Definition operator_call (this : t) (rng : mt19937) : Z * t * mt19937 :=
  let '(k, rng) := discrete_draw (weights (_dist this)) rng in
  (k, this, rng).

Definition s (this : t) : RealType := _s this.
Definition q (this : t) : RealType := _q this.
Definition min (this : t) : Z := 1%Z.
Definition max (this : t) : Z := _n this.

End Template.
End zipf_table_distribution.

(** The unnormalised weight [(q + i)^(-s)] of the value [i], as the
    specification writes it. *)
Definition weight {RealType : Type} {ops : RealOps RealType}
    (s q : RealType) (i : Z) : RealType :=
  std_pow (rt_add q (of_int i)) (rt_neg s).

(** ** An engine given by the canonical numbers it will deliver

    The engine is the sequence of the numbers that
    [std::generate_canonical] obtains from it.  The two distributions are
    those of libstdc++.  A uniform real draw returns
    [canonical * (b - a) + a], written [a + (b - a) * canonical] below
    (sums and products commute, in IEEE arithmetic as well).  A discrete
    distribution built from fewer than two weights returns 0 and leaves
    the engine alone; otherwise it
    divides each weight by the sum of the weights ([std::accumulate] from
    [0.0]), accumulates the quotients ([std::partial_sum]), overwrites the
    last cumulated value by [1.0], and a draw returns the position
    [std::lower_bound] finds for the next canonical number among the
    cumulated values. *)

Section CanonicalEngine.
Context {RealType : Type} {ops : RealOps RealType}.
Local Open Scope rt_scope.

Definition canonical_engine : Type := nat -> RealType.

Definition advance (g : canonical_engine) : canonical_engine :=
  fun i => g (S i).

Definition accumulate (ws : list RealType) : RealType :=
  fold_left rt_add ws (lit 0.0).

Definition normalize (ws : list RealType) (sum : RealType)
    : list RealType :=
  map (fun w => w / sum) ws.

Fixpoint partial_sum_from (acc : RealType) (ps : list RealType)
    : list RealType :=
  match ps with
  | [] => []
  | p :: ps' => (acc + p) :: partial_sum_from (acc + p) ps'
  end.

Definition partial_sum (ps : list RealType) : list RealType :=
  match ps with
  | [] => []
  | p :: ps' => p :: partial_sum_from p ps'
  end.

(** [_M_cp[_M_cp.size() - 1] = 1.0] *)
Fixpoint set_last (cp : list RealType) : list RealType :=
  match cp with
  | [] => []
  | c :: cp' =>
      match cp' with
      | [] => [lit 1.0]
      | _ :: _ => c :: set_last cp'
      end
  end.

(** [param_type::_M_initialize]: the cumulated probabilities, empty when
    there are fewer than two weights. *)
Definition cumulative (ws : list RealType) : list RealType :=
  if (List.length ws <? 2)%nat then []
  else set_last (partial_sum (normalize ws (accumulate ws))).

(** The loop of [std::lower_bound] on the window of [len] elements that
    starts at index [first]; [turns] bounds the number of turns, and each
    turn at least halves [len]. *)
Fixpoint lower_bound_from (turns : nat) (cp : list RealType)
    (first len : nat) (val : RealType) : nat :=
  match turns with
  | O => first
  | S turns' =>
      if (len =? 0)%nat then first
      else
        let half := Nat.div2 len in
        let middle := (first + half)%nat in
        if nth middle cp (lit 0.0) <? val
        then lower_bound_from turns' cp (S middle) (len - half - 1)%nat val
        else lower_bound_from turns' cp first half val
  end.

Definition lower_bound (cp : list RealType) (val : RealType) : nat :=
  lower_bound_from (List.length cp) cp 0 (List.length cp) val.

Definition canonical_random : StdRandom RealType := {|
  mt19937 := canonical_engine;
  uniform_real_draw a b g := (a + (b - a) * g O, advance g);
  discrete_draw ws g :=
    match cumulative ws with
    | [] => (0%Z, g)
    | cp => (Z.of_nat (lower_bound cp (g O)), advance g)
    end
|}.

End CanonicalEngine.

(** ** Exact real arithmetic as an instance of [RealOps]

    Every operation has its mathematical value wherever that value is a
    real number: this is the program with the rounding, the overflow and
    the underflow of [double] taken away.  Where IEEE arithmetic answers
    with an infinity or a NaN (a division by zero, the logarithm of a
    non-positive number, a negative base with a fractional exponent, zero
    to a negative power) there is no such value, and the operation returns
    what the corresponding function of the standard library of reals
    returns.  The unqualified [abs] is [int abs(int)]: its argument is
    converted to an integer, which truncates it. *)

Local Open Scope R_scope.

Definition R_lt (x y : R) : bool := if Rlt_dec x y then true else false.
Definition R_le (x y : R) : bool := if Rle_dec x y then true else false.

(** [std::round]: to the nearest integer, halfway cases away from zero. *)
Definition R_round (x : R) : R :=
  IZR (if Rle_dec 0 x then Zfloor (x + / 2) else Zceil (x - / 2)).

(** Conversion to an integer type truncates toward zero. *)
Definition R_to_int (x : R) : Z :=
  if Rle_dec 0 x then Zfloor x else Zceil x.

(** [std::pow]: [exp (y * ln x)] for a positive base and the integer power
    for an integral exponent.  What is left is zero to a positive fractional
    power, which is [0], and a negative base with a fractional exponent,
    which has no real value. *)
Definition R_pow (x y : R) : R :=
  if Rlt_dec 0 x then Rpower x y
  else if Req_dec_T y (IZR (Zfloor y)) then powerRZ x (Zfloor y)
  else 0%R.

#[export] Instance R_ops : RealOps R := {|
  lit := Q2R;
  of_int := IZR;
  to_int := R_to_int;
  rt_add := Rplus;
  rt_sub := Rminus;
  rt_mul := Rmult;
  rt_div := Rdiv;
  rt_neg := Ropp;
  rt_lt := R_lt;
  rt_le := R_le;
  abs := fun x => IZR (Z.abs (R_to_int x));
  std_abs := Rabs;
  std_round := R_round;
  std_pow := R_pow;
  std_log := ln;
  std_log1p := fun x => ln (1 + x);
  std_exp := exp;
  std_expm1 := fun x => (exp x - 1)%R
|}.

(** The rejection-inversion sampler and the table sampler over exact reals,
    driven by a sequence of canonical numbers. *)
Definition R_random : StdRandom R := canonical_random.

Definition R_zipf : Type :=
  @zipf_distribution.t R.

Definition R_zipf_table : Type :=
  @zipf_table_distribution.t R.

(** A rejection-inversion sampler with a negative exponent, and a table
    sampler, both over exact reals; and the engine whose canonical numbers
    are all zero. *)
Definition example_zipf : R_zipf :=
  @zipf_distribution.init_members R R_ops 8 (-1 / 2) (-15 / 64).

Definition example_explicit : R_zipf :=
  {| zipf_distribution.n := 8;
     zipf_distribution._s := -1 / 2;
     zipf_distribution._q := -15 / 64;
     zipf_distribution.oms := 3 / 2;
     zipf_distribution.spole := false;
     zipf_distribution.rvs := 2 / 3;
     zipf_distribution.H_x1 := 19 / 256;
     zipf_distribution.H_n := 12167 / 768;
     zipf_distribution.cut := 49 / 64 - Rpower (57 / 512) (2 / 3);
     zipf_distribution.dist := {| dist_a := 19 / 256; dist_b := 12167 / 768 |}
  |}.

Definition zero_engine : @canonical_engine R := fun _ => 0%R.

Definition half_engine : @canonical_engine R := fun _ => (1 / 2)%R.

Definition example_table_pdf : list R :=
  fst (@zipf_table_distribution.init R R_ops [] 3 2 0).

Definition example_table : R_zipf_table :=
  {| zipf_table_distribution._pdf := example_table_pdf;
     zipf_table_distribution._n := 3;
     zipf_table_distribution._s := 2;
     zipf_table_distribution._q := 0;
     zipf_table_distribution._dist := {| weights := example_table_pdf |} |}.

(** The divisors in [l] are all different from zero. *)
Definition all_nonzero (l : list R) : Prop := Forall (fun d => d <> 0) l.

(** ** IEEE binary64 as an instance of [RealOps]

    [double] is the primitive type of binary64 numbers, with the sum,
    difference, product, quotient and comparisons of IEEE 754 (round to
    nearest, ties to even).  The functions of <cmath> whose results the
    C standard does not fix bit for bit are a parameter ([libm]). *)








(** ** The closed forms of the exact regimes

    [exact_regime s] holds when the exponent is exactly 1 or when the
    constructor leaves [spole] false, which it does when [1 - s] does not
    truncate to 0: then [H] and [H_inv] evaluate a logarithm, an
    exponential or a power, and never a truncated series.
    [H_exact] and [H_inv_exact] are these closed forms as functions of
    [a = x + q] and of [y].  [H_exact_range s y] says that [y] is a value
    [H] takes: for [s <> 1], the product [y * (1 - s)] that [H_inv] raises
    to a power is positive. *)

Definition exact_regime (s : R) : Prop := s = 1 \/ 1 <= Rabs (1 - s).

Definition H_exact (s a : R) : R :=
  if Req_dec_T s 1 then ln a else Rpower a (1 - s) / (1 - s).

Definition H_inv_exact (s y : R) : R :=
  if Req_dec_T s 1 then exp y else Rpower (y * (1 - s)) (1 / (1 - s)).

Definition H_exact_range (s y : R) : Prop := s = 1 \/ 0 < y * (1 - s).

(** Inputs on which the properties of the exact regime are exercised: a
    sampler with exponent 2 and one whose exponent is [1e-5] below the
    pole. *)
Definition square_zipf : R_zipf :=
  @zipf_distribution.init_members R R_ops 8 2 0.

Definition near_pole_zipf : R_zipf :=
  @zipf_distribution.init_members R R_ops 8 (1 - 1 / 100000) 0.

(** A sampler whose exponent lies between -1 and 0. *)
Definition concave_zipf : R_zipf :=
  @zipf_distribution.init_members R R_ops 8 (-1 / 2) 0.

(** A sampler whose exponent is [1/2] away from 1. *)
Definition truncated_pole_zipf : R_zipf :=
  @zipf_distribution.init_members R R_ops 8 (3 / 2) 0.

(** * Properties that hold for every arithmetic and every engine *)

Section Structure.
Context {RealType : Type} {ops : RealOps RealType} {rnd : StdRandom RealType}.
Local Open Scope rt_scope.

Import zipf_distribution.

Lemma construct_unfold (n : Z) (s q : RealType) :
  construct n s q =
  if - lit 0.5 >=? q
  then Throw (runtime_error
                "Range error: Parameter q must be greater than -0.5!")
  else Ok (init_members n s q).
Proof. reflexivity. Qed.

Lemma construct_Ok_inv (n : Z) (s q : RealType) (this : t) :
  construct n s q = Ok this ->
  this = init_members n s q /\ (- lit 0.5 >=? q) = false.
Proof.
  rewrite construct_unfold.
  destruct (- lit 0.5 >=? q); intros E; [discriminate E|].
  injection E as <-. split; reflexivity.
Qed.

Lemma init_members_dist (n : Z) (s q : RealType) :
  dist (init_members n s q) =
  {| dist_a := H_x1 (init_members n s q);
     dist_b := H_n (init_members n s q) |}.
Proof. reflexivity. Qed.

(** One turn of the loop, for an object whose [dist] is [[H_x1, H_n]]. *)
Lemma operator_call_step (fuel : nat) (this : t) (rng : mt19937) :
  dist this = {| dist_a := H_x1 this; dist_b := H_n this |} ->
  operator_call (S fuel) this rng =
  let '(u, rng') := uniform_real_draw (H_x1 this) (H_n this) rng in
  let x := H_inv this u in
  let k := to_int (std_round x) in
  if of_int k - x <=? cut this then Some (k, this, rng')
  else if u >=? H this (of_int k + lit 0.5) - h this (of_int k)
       then Some (k, this, rng')
       else operator_call fuel this rng'.
Proof.
  intros Hd. cbn [operator_call]. rewrite Hd. reflexivity.
Qed.

Lemma operator_call_frame (fuel : nat) (this : t) (rng : mt19937)
    (k : Z) (this' : t) (rng' : mt19937) :
  operator_call fuel this rng = Some (k, this', rng') -> this' = this.
Proof.
  revert rng. induction fuel as [|fuel IH]; intros rng; cbn [operator_call].
  - discriminate.
  - destruct (uniform_real_draw _ _ rng) as [u r].
    destruct (_ <=? cut this).
    + intros E; injection E as _ <- _; reflexivity.
    + destruct (_ <=? u).
      * intros E; injection E as _ <- _; reflexivity.
      * apply IH.
Qed.

Lemma operator_call_more_fuel (fuel extra : nat) (this : t) (rng : mt19937)
    (r : Z * t * mt19937) :
  operator_call fuel this rng = Some r ->
  operator_call (fuel + extra) this rng = Some r.
Proof.
  revert rng. induction fuel as [|fuel IH]; intros rng;
    cbn [operator_call Nat.add].
  - discriminate.
  - destruct (uniform_real_draw _ _ rng) as [u r0].
    destruct (_ <=? cut this); [trivial|].
    destruct (_ <=? u); [trivial|]. apply IH.
Qed.

Lemma operator_call_sound (fuel : nat) (this : t) (rng : mt19937)
    (k : Z) (this' : t) (rng' : mt19937) :
  dist this = {| dist_a := H_x1 this; dist_b := H_n this |} ->
  operator_call fuel this rng = Some (k, this', rng') ->
  rejection_inversion this rng k rng'.
Proof.
  intros Hd. revert rng.
  induction fuel as [|fuel IH]; intros rng.
  - discriminate.
  - rewrite (operator_call_step _ _ _ Hd).
    destruct (uniform_real_draw (H_x1 this) (H_n this) rng) as [u r] eqn:Eu.
    cbv zeta.
    destruct (_ <=? cut this) eqn:Efast.
    + intros E; injection E as <- _ <-.
      eapply ri_fast_accept; eauto.
    + destruct (_ <=? u) eqn:Esq.
      * intros E; injection E as <- _ <-.
        eapply ri_squeeze_accept; eauto.
      * intros E. eapply ri_reject; eauto.
Qed.

Lemma operator_call_complete (this : t) (rng : mt19937) (k : Z)
    (rng' : mt19937) :
  dist this = {| dist_a := H_x1 this; dist_b := H_n this |} ->
  rejection_inversion this rng k rng' ->
  exists fuel, operator_call fuel this rng = Some (k, this, rng').
Proof.
  intros Hd R.
  induction R as [rng u rng' x k Eu -> -> Efast
                 |rng u rng' x k Eu -> -> Efast Esq
                 |rng u rng' x k k' rng'' Eu -> -> Efast Esq _ [fuel IH]].
  - exists 1%nat. rewrite (operator_call_step _ _ _ Hd), Eu. cbv zeta.
    rewrite Efast. reflexivity.
  - exists 1%nat. rewrite (operator_call_step _ _ _ Hd), Eu. cbv zeta.
    rewrite Efast, Esq. reflexivity.
  - exists (S fuel). rewrite (operator_call_step _ _ _ Hd), Eu. cbv zeta.
    rewrite Efast, Esq. exact IH.
Qed.

End Structure.

Section Recording.
Context {RealType : Type} {ops : RealOps RealType} {rnd : StdRandom RealType}.
Local Open Scope rt_scope.

Import zipf_distribution.

(** Forgetting the recorded divisors gives back the functions of the
    header. *)

Lemma expxm1bx_divs_value (x : RealType) :
  fst (expxm1bx_divs x) = expxm1bx x.
Proof.
  unfold expxm1bx_divs, expxm1bx.
  destruct (std_abs x >? epsilon); reflexivity.
Qed.

Lemma log1pxbx_divs_value (x : RealType) :
  fst (log1pxbx_divs x) = log1pxbx x.
Proof.
  unfold log1pxbx_divs, log1pxbx.
  destruct (std_abs x >? epsilon); reflexivity.
Qed.

Lemma dbind_value {A B : Type} (m : Divs RealType A)
    (f : A -> Divs RealType B) :
  fst (dbind m f) = fst (f (fst m)).
Proof.
  unfold dbind. destruct m as [a l1]. cbn. destruct (f a); reflexivity.
Qed.

Lemma dbind_divisors {A B : Type} (m : Divs RealType A)
    (f : A -> Divs RealType B) :
  snd (dbind m f) = snd m ++ snd (f (fst m)).
Proof.
  unfold dbind. destruct m as [a l1]. cbn. destruct (f a); reflexivity.
Qed.

Lemma H_at_divs_value (q oms : RealType) (spole : bool) (x : RealType) :
  fst (H_at_divs q oms spole x) = H_at q oms spole x.
Proof.
  unfold H_at_divs, H_at. destruct spole; cbn [negb]; [|reflexivity].
  rewrite dbind_value. cbn [fst dret]. rewrite expxm1bx_divs_value.
  reflexivity.
Qed.

Lemma H_inv_at_divs_value (q oms : RealType) (spole : bool)
    (rvs y : RealType) :
  fst (H_inv_at_divs q oms spole rvs y) = H_inv_at q oms spole rvs y.
Proof.
  unfold H_inv_at_divs, H_inv_at. destruct spole; cbn [negb]; [|reflexivity].
  rewrite dbind_value. cbn [fst dret]. rewrite log1pxbx_divs_value.
  reflexivity.
Qed.

Lemma init_members_divs_value (n : Z) (s q : RealType) :
  fst (init_members_divs n s q) = init_members n s q.
Proof.
  unfold init_members_divs, init_members.
  destruct (abs (lit 1.0 - s) <? epsilon);
    repeat (rewrite dbind_value; cbv beta; cbn [fst dret ddiv]);
    rewrite !H_at_divs_value, !H_inv_at_divs_value;
    reflexivity.
Qed.

(** The outcome of one turn: [true] when the candidate is accepted. *)
Lemma iteration_divs_value (this : t) (u : RealType) :
  fst (iteration_divs this u) =
  let x := H_inv this u in
  let k := to_int (std_round x) in
  if of_int k - x <=? cut this then true
  else u >=? H this (of_int k + lit 0.5) - h this (of_int k).
Proof.
  unfold iteration_divs. rewrite dbind_value, H_inv_at_divs_value.
  fold (H_inv this u). cbv zeta.
  destruct (_ <=? cut this); [reflexivity|].
  rewrite dbind_value, H_at_divs_value. reflexivity.
Qed.

End Recording.

Section Table.
Context {RealType : Type} {ops : RealOps RealType} {rnd : StdRandom RealType}.
Local Open Scope rt_scope.

Import zipf_table_distribution.

Lemma init_loop_spec (todo : nat) (i : Z) (s q : RealType)
    (pdf : list RealType) :
  init_loop todo i s q pdf =
  pdf ++ map (fun j => weight s q (i + Z.of_nat j)) (seq 0 todo).
Proof.
  revert i pdf. induction todo as [|todo IH]; intros i pdf.
  - cbn. rewrite app_nil_r. reflexivity.
  - cbn [init_loop]. rewrite IH, <- app_assoc. f_equal.
    cbn [seq map app]. rewrite Z.add_0_r. f_equal.
    rewrite <- seq_shift, map_map.
    apply map_ext. intros j. f_equal. lia.
Qed.

Lemma init_pdf (n : Z) (s q : RealType) :
  fst (init [] n s q) =
  lit 0.0 :: map (fun j => weight s q (1 + Z.of_nat j)) (seq 0 (Z.to_nat n)).
Proof. unfold init. cbn [fst app]. apply init_loop_spec. Qed.

Lemma construct_unfold_table (n : Z) (s q : RealType) :
  construct n s q =
  Ok {| _pdf := fst (init [] n s q); _n := n; _s := s; _q := q;
        _dist := {| weights := fst (init [] n s q) |} |}.
Proof. reflexivity. Qed.

Lemma pdf_length (n : Z) (s q : RealType) :
  List.length (fst (init [] n s q)) = S (Z.to_nat n).
Proof.
  rewrite init_pdf. cbn [List.length].
  rewrite length_map, length_seq. reflexivity.
Qed.

Lemma pdf_at_zero (n : Z) (s q : RealType) :
  nth_error (fst (init [] n s q)) 0 = Some (lit 0.0).
Proof. rewrite init_pdf. reflexivity. Qed.

Lemma pdf_at (n : Z) (s q : RealType) (i : Z) :
  (1 <= i <= n)%Z ->
  nth_error (fst (init [] n s q)) (Z.to_nat i) = Some (weight s q i).
Proof.
  intros Hi. rewrite init_pdf.
  replace (Z.to_nat i) with (S (Z.to_nat (i - 1))) by lia.
  cbn [nth_error].
  rewrite nth_error_map, nth_error_seq.
  destruct (Nat.ltb_spec (Z.to_nat (i - 1)) (Z.to_nat n)) as [_|Hge]; [|lia].
  cbn [option_map Nat.add]. f_equal. f_equal. lia.
Qed.

Lemma operator_call_frame_table (this : t) (rng : mt19937) :
  snd (fst (operator_call this rng)) = this.
Proof.
  unfold operator_call. destruct (discrete_draw _ rng); reflexivity.
Qed.

End Table.

(** * Exact real arithmetic: auxiliary facts *)

Ltac rt_simpl :=
  cbn [lit of_int to_int rt_add rt_sub rt_mul rt_div rt_neg rt_lt rt_le
       abs std_abs std_round std_pow std_log std_log1p std_exp std_expm1 R_ops]
    in *.

Lemma Q2R_unfold (a : Z) (b : positive) :
  Q2R (a # b) = IZR a / IZR (Z.pos b).
Proof. reflexivity. Qed.

Lemma R_lt_spec (x y : R) : R_lt x y = true <-> x < y.
Proof. unfold R_lt. destruct (Rlt_dec x y); split; intros; easy. Qed.

Lemma R_le_spec (x y : R) : R_le x y = true <-> x <= y.
Proof. unfold R_le. destruct (Rle_dec x y); split; intros; easy. Qed.

Lemma R_lt_false (x y : R) : R_lt x y = false <-> y <= x.
Proof.
  unfold R_lt. destruct (Rlt_dec x y); split; intros; try easy; lra.
Qed.

Lemma R_le_false (x y : R) : R_le x y = false <-> y < x.
Proof.
  unfold R_le. destruct (Rle_dec x y); split; intros; try easy; lra.
Qed.

Lemma R_pow_pos (x y : R) : 0 < x -> R_pow x y = Rpower x y.
Proof.
  intros Hx. unfold R_pow. destruct (Rlt_dec 0 x); [reflexivity|lra].
Qed.

Lemma Rpower_pos (x y : R) : 0 < Rpower x y.
Proof. unfold Rpower. apply exp_pos. Qed.

Lemma Rpower_root (a b : R) (p q : nat) :
  0 < a -> 0 < b -> (0 < q)%nat -> b ^ q = a ^ p ->
  Rpower a (INR p / INR q) = b.
Proof.
  intros Ha Hb Hq E.
  unfold Rdiv. rewrite <- Rpower_mult, (Rpower_pow p a Ha), <- E.
  rewrite <- (Rpower_pow q b Hb), Rpower_mult.
  rewrite Rinv_r; [apply Rpower_1; exact Hb|].
  apply not_0_INR; lia.
Qed.

Lemma Rpower_three_halves (a b : R) :
  0 < a -> 0 < b -> b ^ 2 = a ^ 3 -> Rpower a (3 / 2) = b.
Proof.
  intros Ha Hb E. replace (3 / 2) with (INR 3 / INR 2) by (simpl; lra).
  apply Rpower_root; auto.
Qed.

Lemma Rpower_one_half (a b : R) :
  0 < a -> 0 < b -> b ^ 2 = a -> Rpower a (1 / 2) = b.
Proof.
  intros Ha Hb E. replace (1 / 2) with (INR 1 / INR 2) by (simpl; lra).
  apply Rpower_root; auto. simpl; lra.
Qed.

Lemma Rpower_two_thirds_lt (c b : R) :
  0 < c -> 0 < b -> c ^ 2 < b ^ 3 -> Rpower c (2 / 3) < b.
Proof.
  intros Hc Hb Hlt.
  destruct (Rlt_dec (Rpower c (2 / 3)) b) as [|Hge]; [assumption|exfalso].
  apply Rnot_lt_le in Hge.
  assert (E : Rpower c (2 / 3) ^ 3 = c ^ 2).
  { rewrite <- (Rpower_pow 3), Rpower_mult by apply Rpower_pos.
    replace (2 / 3 * INR 3) with (INR 2) by (simpl; lra).
    apply Rpower_pow; exact Hc. }
  assert (b ^ 3 <= Rpower c (2 / 3) ^ 3) by (apply pow_incr; lra).
  lra.
Qed.

Lemma R_to_int_IZR (z : Z) : R_to_int (IZR z) = z.
Proof.
  unfold R_to_int. destruct (Rle_dec 0 (IZR z)).
  - apply ZfloorZ.
  - unfold Zceil. rewrite ZfloorNZ. lia.
Qed.

Lemma R_round_below_half (x : R) : 0 <= x < 1 / 2 -> R_round x = 0.
Proof.
  intros Hx. unfold R_round. destruct (Rle_dec 0 x); [|lra].
  rewrite (Zfloor_eq 0); [reflexivity|lra].
Qed.

Lemma epsilon_R : @zipf_distribution.epsilon R R_ops = 2 / 100000.
Proof.
  unfold zipf_distribution.epsilon. rt_simpl.
  change 2e-5%Q with (2 # 100000)%Q.
  rewrite Q2R_unfold. reflexivity.
Qed.

(** ** The regime test of the constructor

    [abs(oms) < epsilon] converts [oms] to an integer first: the test holds
    exactly when [oms] truncates to 0, that is when [|oms| < 1]. *)

Lemma R_to_int_zero (x : R) : R_to_int x = 0%Z <-> Rabs x < 1.
Proof.
  unfold R_to_int. destruct (Rle_dec 0 x) as [Hx|Hx].
  - rewrite Rabs_pos_eq by exact Hx.
    pose proof (Zfloor_bound x) as Hb. split.
    + intros E. rewrite E in Hb. lra.
    + intros Hlt. apply Zfloor_eq. lra.
  - rewrite Rabs_left by lra. unfold Zceil.
    pose proof (Zfloor_bound (- x)) as Hb. split.
    + intros E. assert (E' : Zfloor (- x) = 0%Z) by lia.
      rewrite E' in Hb. lra.
    + intros Hlt. rewrite (Zfloor_eq 0); [reflexivity|lra].
Qed.

Lemma truncated_abs_test (x : R) :
  R_lt (IZR (Z.abs (R_to_int x))) (2 / 100000) = R_lt (Rabs x) 1.
Proof.
  destruct (Z.eq_dec (R_to_int x) 0) as [E|E].
  - rewrite E. cbn [Z.abs].
    replace (R_lt 0 (2 / 100000)) with true
      by (symmetry; apply R_lt_spec; lra).
    symmetry. apply R_lt_spec. apply R_to_int_zero. exact E.
  - assert (H1 : 1 <= IZR (Z.abs (R_to_int x))) by (apply IZR_le; lia).
    replace (R_lt (IZR (Z.abs (R_to_int x))) (2 / 100000)) with false
      by (symmetry; apply R_lt_false; lra).
    symmetry. apply R_lt_false.
    destruct (Rle_dec 1 (Rabs x)) as [Hle|Hn]; [exact Hle|].
    exfalso. apply E. apply R_to_int_zero. lra.
Qed.

(** ** The sampler [example_zipf] *)

Lemma example_zipf_members : example_zipf = example_explicit.
Proof.
  unfold example_zipf, zipf_distribution.init_members,
    zipf_distribution.H_at, zipf_distribution.h_at,
    zipf_distribution.H_inv_at.
  rewrite epsilon_R. rt_simpl. rewrite !Q2R_unfold.
  replace (10 / 10 - -1 / 2) with (3 / 2) by lra.
  assert (Epole : R_lt (Rabs (3 / 2)) 1 = false).
  { apply R_lt_false. rewrite Rabs_pos_eq; lra. }
  rewrite truncated_abs_test, Epole. cbn [negb].
  replace (10 / 10 / (3 / 2)) with (2 / 3) by lra.
  replace (15 / 10 + -15 / 64) with (81 / 64) by lra.
  replace (10 / 10 + -15 / 64) with (49 / 64) by lra.
  replace (8 + 5 / 10 + -15 / 64) with (529 / 64) by lra.
  replace (- (-1 / 2)) with (1 / 2) by lra.
  rewrite !R_pow_pos by lra.
  rewrite (Rpower_three_halves (81 / 64) (729 / 512)) by lra.
  rewrite (Rpower_three_halves (529 / 64) (12167 / 512)) by lra.
  rewrite (Rpower_one_half (49 / 64) (7 / 8)) by lra.
  replace ((729 / 512 / (3 / 2) - 7 / 8) * (3 / 2)) with (57 / 512) by lra.
  rewrite R_pow_pos by lra.
  unfold example_explicit. f_equal; try lra.
  f_equal; lra.
Qed.

Lemma example_zipf_constructed :
  @zipf_distribution.construct R R_ops 8 (-1 / 2) (-15 / 64)
  = Ok example_zipf.
Proof.
  rewrite construct_unfold. fold example_zipf.
  replace (rt_le _ _) with false; [reflexivity|].
  symmetry. rt_simpl. apply R_le_false. rewrite Q2R_unfold. lra.
Qed.

(** Whenever the first canonical number is at most 1/1000, the first
    candidate of [example_zipf] is 0 and the fast test accepts it. *)
Lemma example_zipf_draw (g : @canonical_engine R) :
  0 <= g O <= 1 / 1000 ->
  @zipf_distribution.operator_call R R_ops R_random 1 example_zipf g
  = Some (0%Z, example_zipf, advance g).
Proof.
  intros Hg. rewrite example_zipf_members.
  cbn [zipf_distribution.operator_call uniform_real_draw R_random
       canonical_random zipf_distribution.dist dist_a dist_b
       example_explicit].
  unfold zipf_distribution.H_inv, zipf_distribution.H_inv_at.
  cbn [zipf_distribution._q zipf_distribution.oms zipf_distribution.spole
       zipf_distribution.rvs zipf_distribution.cut example_explicit negb].
  rt_simpl.
  set (u := 19 / 256 + (12167 / 768 - 19 / 256) * g O).
  assert (Hu : 19 / 256 <= u <= 9 / 100) by (unfold u; lra).
  assert (Hpos : 0 < u * (3 / 2)) by lra.
  rewrite R_pow_pos by exact Hpos.
  assert (Hx : Rpower (u * (3 / 2)) (2 / 3) < 17 / 64).
  { apply Rpower_two_thirds_lt; [exact Hpos|lra|nra]. }
  assert (Hc : Rpower (57 / 512) (2 / 3) < 17 / 64).
  { apply Rpower_two_thirds_lt; lra. }
  pose proof (Rpower_pos (u * (3 / 2)) (2 / 3)) as Hx0.
  pose proof (Rpower_pos (57 / 512) (2 / 3)) as Hc0.
  rewrite R_round_below_half by lra.
  rewrite R_to_int_IZR.
  replace (R_le _ _) with true; [reflexivity|].
  symmetry. apply R_le_spec. lra.
Qed.

(** * The claims that hold for every arithmetic and every engine *)

Section Claims.
Context {RealType : Type} {ops : RealOps RealType} {rnd : StdRandom RealType}.
Local Open Scope rt_scope.

Import zipf_distribution.

(** C2: a call of [operator()] on a constructed sampler returns [k] and
    leaves the engine in [rng'] exactly when the loop of the specification
    does: draw [u] from [[H_x1, H_n]], put [x = H_inv u] and [k = round x],
    return [k] if [k - x <= cut], otherwise return [k] if
    [u >= H (k + 0.5) - h k], otherwise start again.  The squeeze test only
    decides when the fast test has failed. *)
Theorem operator_call_rejection_inversion
    (n : Z) (s q : RealType) (this : t)
    (rng : mt19937) (k : Z) (this' : t) (rng' : mt19937) :
  construct n s q = Ok this ->
  (exists fuel, operator_call fuel this rng = Some (k, this', rng'))
  <-> (this' = this /\ rejection_inversion this rng k rng').
Proof.
  intros Hc. apply construct_Ok_inv in Hc as [-> _].
  pose proof (init_members_dist n s q) as Hd.
  split.
  - intros [fuel E]. split.
    + eapply operator_call_frame; exact E.
    + eapply operator_call_sound; [exact Hd|exact E].
  - intros [-> R]. apply operator_call_complete; assumption.
Qed.


(** C8: a draw of either sampler returns the sampler it was called on,
    with every member as before; only the engine is advanced.  [reset]
    changes nothing either. *)
Theorem draw_leaves_sampler_unchanged
    (fuel : nat) (this : t) (table : zipf_table_distribution.t)
    (rng : mt19937) :
  (forall (k : Z) (this' : t) (rng' : mt19937),
     operator_call fuel this rng = Some (k, this', rng') -> this' = this)
  /\ (forall (k : Z) (table' : zipf_table_distribution.t) (rng' : mt19937),
        zipf_table_distribution.operator_call table rng = (k, table', rng') ->
        table' = table)
  /\ reset this = this
  /\ zipf_table_distribution.reset table = table.
Proof.
  split.
  { intros k this' rng' E. eapply operator_call_frame; exact E. }
  split.
  { intros k table' rng' E.
    pose proof (operator_call_frame_table table rng) as F.
    rewrite E in F. exact F. }
  split; reflexivity.
Qed.

(** C5: the constructor of the table sampler returns an object for every
    [q], also where the constructor of [zipf_distribution] throws. *)
Theorem table_construct_never_throws (n : Z) (s q : RealType) :
  (exists this, zipf_table_distribution.construct n s q = Ok this
                /\ zipf_table_distribution._q this = q)
  /\ is_ok (construct n s q) = negb (q <=? - lit 0.5).
Proof.
  split.
  - rewrite construct_unfold_table. eexists. split; reflexivity.
  - rewrite construct_unfold. destruct (q <=? - lit 0.5); reflexivity.
Qed.

(** C6: the table a constructed sampler holds has [n + 1] entries, the
    entry at index 0 is [0.0], and the entry at each index [i] of [1..n] is
    [pow(q + i, -s)]. *)
Theorem pdf_contents (n : Z) (s q : RealType)
    (this : zipf_table_distribution.t) :
  (0 <= n)%Z ->
  zipf_table_distribution.construct n s q = Ok this ->
  Z.of_nat (List.length (zipf_table_distribution._pdf this)) = (n + 1)%Z
  /\ nth_error (zipf_table_distribution._pdf this) 0 = Some (lit 0.0)
  /\ forall i : Z, (1 <= i <= n)%Z ->
       nth_error (zipf_table_distribution._pdf this) (Z.to_nat i)
       = Some (std_pow (q + of_int i) (- s)).
Proof.
  intros Hn Hc. rewrite construct_unfold_table in Hc.
  assert (E : zipf_table_distribution._pdf this
              = fst (zipf_table_distribution.init [] n s q)).
  { injection Hc as <-. reflexivity. }
  rewrite E.
  split; [rewrite pdf_length; lia|].
  split; [apply pdf_at_zero|].
  intros i Hi. apply pdf_at; exact Hi.
Qed.

End Claims.

(** * Divisors evaluated by the rejection-inversion sampler, over exact
      reals *)

Lemma all_nonzero_app (l1 l2 : list R) :
  all_nonzero l1 -> all_nonzero l2 -> all_nonzero (l1 ++ l2).
Proof. intros H1 H2. apply Forall_app. split; assumption. Qed.

Lemma all_nonzero_nil : all_nonzero [].
Proof. constructor. Qed.

Lemma lit_R (a : Z) (b : positive) :
  @lit R R_ops (a # b) = IZR a / IZR (Z.pos b).
Proof. reflexivity. Qed.

Lemma above_epsilon_nonzero (x : R) :
  R_lt (2 / 100000) (Rabs x) = true -> x <> 0.
Proof.
  intros Hlt. apply R_lt_spec in Hlt. intros ->.
  rewrite Rabs_R0 in Hlt. lra.
Qed.

Lemma not_below_epsilon_nonzero (x : R) :
  R_lt (Rabs x) (2 / 100000) = false -> x <> 0.
Proof.
  intros Hlt. apply R_lt_false in Hlt. intros ->.
  rewrite Rabs_R0 in Hlt. lra.
Qed.

Lemma not_truncated_nonzero (x : R) :
  R_lt (Rabs x) 1 = false -> x <> 0.
Proof.
  intros Hlt. apply R_lt_false in Hlt. intros ->.
  rewrite Rabs_R0 in Hlt. lra.
Qed.

Lemma expxm1bx_divs_small (x : R) :
  Rabs x <= 2 / 100000 ->
  @zipf_distribution.expxm1bx_divs R R_ops x =
  (1 + x / 2 * (1 + x / 3 * (1 + x / 4)), [4; 3; 2]).
Proof.
  intros Hx. unfold zipf_distribution.expxm1bx_divs.
  rewrite epsilon_R. rt_simpl.
  replace (R_lt _ _) with false by (symmetry; apply R_lt_false; exact Hx).
  unfold dbind, dret, ddiv. rt_simpl. rewrite !Q2R_unfold. cbn [app].
  f_equal; [lra|]. repeat (f_equal; try lra).
Qed.

Lemma log1pxbx_divs_small (x : R) :
  Rabs x <= 2 / 100000 ->
  @zipf_distribution.log1pxbx_divs R R_ops x =
  (1 - x * (1 / 2 - x * (1 / 3 - x * (1 / 4))), [2; 3; 4]).
Proof.
  intros Hx. unfold zipf_distribution.log1pxbx_divs.
  rewrite epsilon_R. rt_simpl.
  replace (R_lt _ _) with false by (symmetry; apply R_lt_false; exact Hx).
  unfold dbind, dret, ddiv. rt_simpl. rewrite !Q2R_unfold. cbn [app].
  f_equal; [lra|]. repeat (f_equal; try lra).
Qed.

Lemma expxm1bx_divs_nonzero (x : R) :
  all_nonzero (snd (@zipf_distribution.expxm1bx_divs R R_ops x)).
Proof.
  destruct (Rle_dec (Rabs x) (2 / 100000)) as [Hs|Hl].
  - rewrite expxm1bx_divs_small by exact Hs. cbn [snd].
    repeat constructor; lra.
  - unfold zipf_distribution.expxm1bx_divs. rewrite epsilon_R. rt_simpl.
    replace (R_lt _ _) with true by (symmetry; apply R_lt_spec; lra).
    cbn [snd ddiv]. repeat constructor.
    intros ->. rewrite Rabs_R0 in Hl. lra.
Qed.

Lemma log1pxbx_divs_nonzero (x : R) :
  all_nonzero (snd (@zipf_distribution.log1pxbx_divs R R_ops x)).
Proof.
  destruct (Rle_dec (Rabs x) (2 / 100000)) as [Hs|Hl].
  - rewrite log1pxbx_divs_small by exact Hs. cbn [snd].
    repeat constructor; lra.
  - unfold zipf_distribution.log1pxbx_divs. rewrite epsilon_R. rt_simpl.
    replace (R_lt _ _) with true by (symmetry; apply R_lt_spec; lra).
    cbn [snd ddiv]. repeat constructor.
    intros ->. rewrite Rabs_R0 in Hl. lra.
Qed.

(** [H] and [H_inv] for members that satisfy what the constructor
    establishes: [spole] is false only if [oms] is not zero. *)
Lemma H_at_divs_nonzero (q oms : R) (spole : bool) (x : R) :
  (spole = false -> oms <> 0) ->
  all_nonzero (snd (@zipf_distribution.H_at_divs R R_ops q oms spole x)).
Proof.
  intros Homs. unfold zipf_distribution.H_at_divs.
  destruct spole; cbn [negb].
  - rewrite dbind_divisors. apply all_nonzero_app.
    + apply expxm1bx_divs_nonzero.
    + apply all_nonzero_nil.
  - cbn [snd ddiv]. repeat constructor. apply Homs. reflexivity.
Qed.

Lemma H_inv_at_divs_nonzero (q oms : R) (spole : bool) (rvs y : R) :
  all_nonzero
    (snd (@zipf_distribution.H_inv_at_divs R R_ops q oms spole rvs y)).
Proof.
  unfold zipf_distribution.H_inv_at_divs. destruct spole; cbn [negb].
  - rewrite dbind_divisors. apply all_nonzero_app.
    + apply log1pxbx_divs_nonzero.
    + apply all_nonzero_nil.
  - apply all_nonzero_nil.
Qed.

Lemma init_members_spole (n : Z) (s q : R) :
  zipf_distribution.spole (@zipf_distribution.init_members R R_ops n s q)
  = R_lt (Rabs (1 - s)) 1.
Proof.
  unfold zipf_distribution.init_members. cbn [zipf_distribution.spole].
  rewrite epsilon_R. rt_simpl. rewrite Q2R_unfold.
  replace (10 / 10 - s) with (1 - s) by lra. apply truncated_abs_test.
Qed.

Lemma init_members_oms (n : Z) (s q : R) :
  zipf_distribution.oms (@zipf_distribution.init_members R R_ops n s q)
  = 1 - s.
Proof.
  unfold zipf_distribution.init_members. cbn [zipf_distribution.oms].
  rt_simpl. rewrite Q2R_unfold. lra.
Qed.

Lemma init_members_oms_nonzero (n : Z) (s q : R) :
  zipf_distribution.spole (@zipf_distribution.init_members R R_ops n s q)
  = false ->
  zipf_distribution.oms (@zipf_distribution.init_members R R_ops n s q) <> 0.
Proof.
  rewrite init_members_spole, init_members_oms.
  apply not_truncated_nonzero.
Qed.

Lemma init_members_divs_nonzero (n : Z) (s q : R) :
  all_nonzero (snd (@zipf_distribution.init_members_divs R R_ops n s q)).
Proof.
  unfold zipf_distribution.init_members_divs.
  assert (Homs : (abs (lit 1.0 - s)%rt <? zipf_distribution.epsilon)%rt
                 = false -> (lit 1.0 - s)%rt <> 0).
  { rewrite epsilon_R. rt_simpl. rewrite truncated_abs_test.
    apply not_truncated_nonzero. }
  destruct (abs (lit 1.0 - s)%rt <? zipf_distribution.epsilon)%rt.
  - repeat (rewrite dbind_divisors; cbv beta).
    cbn [snd dret app].
    repeat apply all_nonzero_app;
      try apply H_at_divs_nonzero; try apply H_inv_at_divs_nonzero;
      try apply all_nonzero_nil; discriminate.
  - repeat (rewrite dbind_divisors; cbv beta).
    cbn [snd dret ddiv].
    repeat apply all_nonzero_app;
      try apply H_at_divs_nonzero; try apply H_inv_at_divs_nonzero;
      try apply all_nonzero_nil; try (intros _; apply Homs; reflexivity).
    repeat constructor. apply Homs. reflexivity.
Qed.

Lemma iteration_divs_nonzero (n : Z) (s q u : R) :
  all_nonzero
    (snd (@zipf_distribution.iteration_divs R R_ops
            (zipf_distribution.init_members n s q) u)).
Proof.
  unfold zipf_distribution.iteration_divs.
  rewrite dbind_divisors. apply all_nonzero_app.
  - apply H_inv_at_divs_nonzero.
  - cbv beta zeta. destruct (rt_le _ _).
    + apply all_nonzero_nil.
    + rewrite dbind_divisors. apply all_nonzero_app.
      * apply H_at_divs_nonzero. apply init_members_oms_nonzero.
      * apply all_nonzero_nil.
Qed.

(** * The claims that need exact real arithmetic *)

Lemma construct_R (n : Z) (s q : R) :
  @zipf_distribution.construct R R_ops n s q
  = if R_le q (-1 / 2)
    then Throw (runtime_error
                  "Range error: Parameter q must be greater than -0.5!")
    else Ok (zipf_distribution.init_members n s q).
Proof.
  rewrite construct_unfold. rt_simpl. rewrite Q2R_unfold.
  replace (- (5 / 10)) with (-1 / 2) by lra. reflexivity.
Qed.

Lemma construct_R_ok (n : Z) (s q : R) :
  -1 / 2 < q ->
  @zipf_distribution.construct R R_ops n s q
  = Ok (zipf_distribution.init_members n s q).
Proof.
  intros Hq. rewrite construct_R. apply R_le_false in Hq.
  rewrite Hq. reflexivity.
Qed.

(** C1: the sampler [example_zipf] is the result of a successful
    construction with [N = 8], [s = -1/2] and [q = -15/64 > -1/2]; its
    sampling range is not empty; and its draw operation, run on the engine
    whose first canonical number is 0, returns 0, which is below [min()]
    and outside [[1, N]]. *)
Theorem zipf_draw_outside_support :
  @zipf_distribution.construct R R_ops 8 (-1 / 2) (-15 / 64) = Ok example_zipf
  /\ -1 / 2 < -15 / 64
  /\ dist_a (zipf_distribution.dist example_zipf)
     < dist_b (zipf_distribution.dist example_zipf)
  /\ @zipf_distribution.operator_call R R_ops R_random 1 example_zipf
       zero_engine
     = Some (0%Z, example_zipf, advance zero_engine)
  /\ zipf_distribution.min example_zipf = 1%Z
  /\ zipf_distribution.max example_zipf = 8%Z.
Proof.
  split; [exact example_zipf_constructed|].
  split; [lra|].
  split.
  { rewrite example_zipf_members.
    cbn [zipf_distribution.dist dist_a dist_b example_explicit]. lra. }
  split.
  { apply example_zipf_draw. unfold zero_engine. lra. }
  split; reflexivity.
Qed.

Lemma expxm1bx_R (t : R) :
  (2 / 100000 < Rabs t ->
   @zipf_distribution.expxm1bx R R_ops t = (exp t - 1) / t)
  /\ (Rabs t <= 2 / 100000 ->
      @zipf_distribution.expxm1bx R R_ops t
      = 1 + t / 2 + t ^ 2 / 6 + t ^ 3 / 24).
Proof.
  unfold zipf_distribution.expxm1bx. rewrite epsilon_R. rt_simpl.
  rewrite !Q2R_unfold. split; intros Ht.
  - replace (R_lt _ _) with true by (symmetry; apply R_lt_spec; exact Ht).
    reflexivity.
  - replace (R_lt _ _) with false by (symmetry; apply R_lt_false; exact Ht).
    field.
Qed.

Lemma log1pxbx_R (t : R) :
  (2 / 100000 < Rabs t ->
   @zipf_distribution.log1pxbx R R_ops t = ln (1 + t) / t)
  /\ (Rabs t <= 2 / 100000 ->
      @zipf_distribution.log1pxbx R R_ops t
      = 1 - t / 2 + t ^ 2 / 3 - t ^ 3 / 4).
Proof.
  unfold zipf_distribution.log1pxbx. rewrite epsilon_R. rt_simpl.
  rewrite !Q2R_unfold. split; intros Ht.
  - replace (R_lt _ _) with true by (symmetry; apply R_lt_spec; exact Ht).
    reflexivity.
  - replace (R_lt _ _) with false by (symmetry; apply R_lt_false; exact Ht).
    field.
Qed.

Lemma init_members_rvs (n : Z) (s q : R) :
  zipf_distribution.rvs (@zipf_distribution.init_members R R_ops n s q)
  = if R_lt (Rabs (1 - s)) 1 then 0 else 1 / (1 - s).
Proof.
  unfold zipf_distribution.init_members. cbn [zipf_distribution.rvs].
  rewrite epsilon_R. rt_simpl. rewrite !Q2R_unfold.
  replace (10 / 10 - s) with (1 - s) by lra.
  rewrite truncated_abs_test.
  destruct (R_lt _ _); lra.
Qed.

Lemma init_members_regimes (n : Z) (s q : R) :
  let this := @zipf_distribution.init_members R R_ops n s q in
  (1 <= Rabs (1 - s) ->
   forall x y : R,
     zipf_distribution.H this x = R_pow (x + q) (1 - s) / (1 - s)
     /\ zipf_distribution.H_inv this y
        = R_pow (y * (1 - s)) (1 / (1 - s)) - q)
  /\ (Rabs (1 - s) < 1 ->
      forall x y : R,
        zipf_distribution.H this x
        = ln (x + q) * zipf_distribution.expxm1bx ((1 - s) * ln (x + q))
        /\ zipf_distribution.H_inv this y
           = exp (y * zipf_distribution.log1pxbx ((1 - s) * y)) - q).
Proof.
  cbv zeta. set (this := zipf_distribution.init_members n s q).
  assert (Hp : zipf_distribution.spole this = R_lt (Rabs (1 - s)) 1)
    by apply init_members_spole.
  assert (Ho : zipf_distribution.oms this = 1 - s) by apply init_members_oms.
  assert (Hr : zipf_distribution.rvs this
               = if R_lt (Rabs (1 - s)) 1 then 0 else 1 / (1 - s))
    by apply init_members_rvs.
  assert (Hq : zipf_distribution._q this = q) by reflexivity.
  split.
  - intros Hfar x y. apply R_lt_false in Hfar.
    unfold zipf_distribution.H, zipf_distribution.H_inv,
      zipf_distribution.H_at, zipf_distribution.H_inv_at.
    rewrite Hr, Hp, Ho, Hq, Hfar. cbn [negb]. split; reflexivity.
  - intros Hnear x y. apply R_lt_spec in Hnear.
    unfold zipf_distribution.H, zipf_distribution.H_inv,
      zipf_distribution.H_at, zipf_distribution.H_inv_at.
    rewrite Hp, Ho, Hq, Hnear. cbn [negb]. split; reflexivity.
Qed.

Lemma Rpower_four_minus_half : Rpower 4 (- (1 / 2)) = 1 / 2.
Proof.
  rewrite Rpower_Ropp, (Rpower_one_half 4 2) by lra. lra.
Qed.

(** C3: the regimes of [H] and [H_inv] are not selected by
    [|1 - s| < 2e-5].  The test [abs(oms) < epsilon] of the constructor
    calls [int abs(int)], so [spole] is set exactly when [|1 - s| < 1].
    The generic forms [H x = (x + q)^(1 - s) / (1 - s)] and
    [H_inv y = (y * (1 - s))^(1 / (1 - s)) - q] are evaluated when
    [|1 - s| >= 1]; the near-pole forms
    [H x = log (x + q) * expxm1bx ((1 - s) * log (x + q))] and
    [H_inv y = exp (y * log1pxbx ((1 - s) * y)) - q] are evaluated whenever
    [|1 - s| < 1].  The helpers are as claimed: [expxm1bx t] is
    [(e^t - 1) / t] by a library call when [|t| > 2e-5] and the series
    [1 + t/2 + t^2/6 + t^3/24] otherwise; [log1pxbx t] is [log (1 + t) / t]
    by a library call when [|t| > 2e-5] and the series
    [1 - t/2 + t^2/3 - t^3/4] otherwise.  At [s = 3/2] and [q = 0], where
    [|1 - s| = 1/2] is far above the tolerance, [spole] is true, [rvs] is 0
    and [H 4] is 1, while the generic form at 4 is -1. *)
Theorem regimes_selected_by_truncation :
  (forall (n : Z) (s q : R) (this : R_zipf),
     @zipf_distribution.construct R R_ops n s q = Ok this ->
     (zipf_distribution.spole this = true <-> Rabs (1 - s) < 1)
     /\ (1 <= Rabs (1 - s) ->
         forall x y : R,
           zipf_distribution.H this x = R_pow (x + q) (1 - s) / (1 - s)
           /\ zipf_distribution.H_inv this y
              = R_pow (y * (1 - s)) (1 / (1 - s)) - q)
     /\ (Rabs (1 - s) < 1 ->
         forall x y : R,
           zipf_distribution.H this x
           = ln (x + q) * zipf_distribution.expxm1bx ((1 - s) * ln (x + q))
           /\ zipf_distribution.H_inv this y
              = exp (y * zipf_distribution.log1pxbx ((1 - s) * y)) - q))
  /\ (forall t : R, 2 / 100000 < Rabs t ->
        @zipf_distribution.expxm1bx R R_ops t = (exp t - 1) / t
        /\ @zipf_distribution.log1pxbx R R_ops t = ln (1 + t) / t)
  /\ (forall t : R, Rabs t <= 2 / 100000 ->
        @zipf_distribution.expxm1bx R R_ops t
        = 1 + t / 2 + t ^ 2 / 6 + t ^ 3 / 24
        /\ @zipf_distribution.log1pxbx R R_ops t
           = 1 - t / 2 + t ^ 2 / 3 - t ^ 3 / 4)
  /\ @zipf_distribution.construct R R_ops 8 (3 / 2) 0
     = Ok truncated_pole_zipf
  /\ 2 / 100000 <= Rabs (1 - 3 / 2)
  /\ zipf_distribution.spole truncated_pole_zipf = true
  /\ zipf_distribution.rvs truncated_pole_zipf = 0
  /\ zipf_distribution.H truncated_pole_zipf 4 = 1
  /\ R_pow (4 + 0) (1 - 3 / 2) / (1 - 3 / 2) = -1.
Proof.
  assert (Habs : Rabs (1 - 3 / 2) = 1 / 2).
  { replace (1 - 3 / 2) with (- (1 / 2)) by lra.
    rewrite Rabs_Ropp, Rabs_pos_eq; lra. }
  split.
  { intros n s q this Hc. apply construct_Ok_inv in Hc as [-> _].
    split; [rewrite init_members_spole; apply R_lt_spec|].
    apply init_members_regimes. }
  split.
  { intros t Ht. split; [apply expxm1bx_R|apply log1pxbx_R]; exact Ht. }
  split.
  { intros t Ht. split; [apply expxm1bx_R|apply log1pxbx_R]; exact Ht. }
  split; [apply construct_R_ok; lra|].
  split; [rewrite Habs; lra|].
  split.
  { unfold truncated_pole_zipf. rewrite init_members_spole.
    apply R_lt_spec. rewrite Habs. lra. }
  split.
  { unfold truncated_pole_zipf. rewrite init_members_rvs.
    replace (R_lt _ _) with true; [reflexivity|].
    symmetry. apply R_lt_spec. rewrite Habs. lra. }
  split.
  { unfold truncated_pole_zipf.
    destruct (init_members_regimes 8 (3 / 2) 0) as [_ Hnear].
    destruct (Hnear ltac:(rewrite Habs; lra) 4 0) as [-> _].
    pose proof ln_lt_2 as Hln2.
    assert (Hln4 : ln (4 + 0) = 2 * ln 2).
    { replace (4 + 0) with (2 * 2) by lra. rewrite ln_mult by lra. lra. }
    assert (Ht : 2 / 100000 < Rabs ((1 - 3 / 2) * ln (4 + 0))).
    { rewrite Hln4. replace ((1 - 3 / 2) * (2 * ln 2)) with (- ln 2) by lra.
      rewrite Rabs_Ropp, Rabs_pos_eq; lra. }
    rewrite (proj1 (expxm1bx_R _) Ht).
    assert (Eexp : exp ((1 - 3 / 2) * ln (4 + 0)) = 1 / 2).
    { replace (4 + 0) with 4 by lra.
      replace (1 - 3 / 2) with (- (1 / 2)) by lra.
      exact Rpower_four_minus_half. }
    rewrite Eexp, Hln4. field. lra. }
  rewrite R_pow_pos by lra.
  replace (4 + 0) with 4 by lra.
  replace (1 - 3 / 2) with (- (1 / 2)) by lra.
  rewrite Rpower_four_minus_half. field.
Qed.

(** C4: the constructor of [zipf_distribution] throws the range error
    exactly when [q <= -0.5]: it throws for [q = -0.5], it returns the
    sampler for [q = -0.499999], and a throwing construction returns no
    object. *)
Theorem construct_range_error (n : Z) (s q : R) :
  (q <= -1 / 2 <->
   @zipf_distribution.construct R R_ops n s q
   = Throw (runtime_error
              "Range error: Parameter q must be greater than -0.5!"))
  /\ (-1 / 2 < q <->
      @zipf_distribution.construct R R_ops n s q
      = Ok (zipf_distribution.init_members n s q))
  /\ is_ok (@zipf_distribution.construct R R_ops n s (lit (-0.5)%Q)) = false
  /\ is_ok (@zipf_distribution.construct R R_ops n s (lit (-0.499999)%Q))
     = true.
Proof.
  split; [|split; [|split]].
  - rewrite construct_R. split.
    + intros Hq. apply R_le_spec in Hq. rewrite Hq. reflexivity.
    + destruct (R_le q (-1 / 2)) eqn:Hq; [|discriminate].
      intros _. apply R_le_spec. exact Hq.
  - rewrite construct_R. split.
    + intros Hq. apply R_le_false in Hq. rewrite Hq. reflexivity.
    + destruct (R_le q (-1 / 2)) eqn:Hq; [discriminate|].
      intros _. apply R_le_false. exact Hq.
  - rewrite construct_R. rt_simpl. rewrite Q2R_unfold.
    replace (R_le _ _) with true; [reflexivity|].
    symmetry. apply R_le_spec. lra.
  - rewrite construct_R. rt_simpl. rewrite Q2R_unfold.
    replace (R_le _ _) with false; [reflexivity|].
    symmetry. apply R_le_false. lra.
Qed.


Lemma Rpower_neg_decreasing (a b s : R) :
  0 < s -> 0 < a -> a < b -> Rpower b (- s) < Rpower a (- s).
Proof.
  intros Hs Ha Hab. unfold Rpower. apply exp_increasing.
  assert (Hln : ln a < ln b) by (apply ln_increasing; lra).
  assert (0 < s * (ln b - ln a)) by (apply Rmult_lt_0_compat; lra).
  lra.
Qed.



(** C9: no division of the rejection-inversion sampler has a zero divisor,
    for any exponent [s], equal to 1 or not.  For [|x| <= 2e-5], zero
    included, [expxm1bx] and [log1pxbx] evaluate their polynomial, whose
    only divisors are the constants 2, 3 and 4, and [x] is not one of them;
    near the pole the constructor stores [rvs = 0.0] and evaluates no
    quotient by [1 - s]; and every divisor met by the constructor, by [H],
    by [H_inv] and by a turn of the draw loop is different from zero.  The
    recorded constructor computes the members of [init_members]. *)
Theorem no_division_by_zero (n : Z) (s q : R) :
  (forall x : R, Rabs x <= 2 / 100000 ->
     @zipf_distribution.expxm1bx_divs R R_ops x
     = (1 + x / 2 * (1 + x / 3 * (1 + x / 4)), [4; 3; 2])
     /\ @zipf_distribution.log1pxbx_divs R R_ops x
        = (1 - x * (1 / 2 - x * (1 / 3 - x * (1 / 4))), [2; 3; 4])
     /\ ~ In x [2; 3; 4])
  /\ (Rabs (1 - s) < 2 / 100000 ->
      zipf_distribution.spole
        (@zipf_distribution.init_members R R_ops n s q) = true
      /\ zipf_distribution.rvs
           (@zipf_distribution.init_members R R_ops n s q) = 0
      /\ ~ In (1 - s)
           (snd (@zipf_distribution.init_members_divs R R_ops n s q)))
  /\ fst (@zipf_distribution.init_members_divs R R_ops n s q)
     = zipf_distribution.init_members n s q
  /\ all_nonzero (snd (@zipf_distribution.init_members_divs R R_ops n s q))
  /\ (forall x : R,
        all_nonzero
          (snd (@zipf_distribution.H_at_divs R R_ops q (1 - s)
                  (R_lt (Rabs (1 - s)) (2 / 100000)) x)))
  /\ (forall y : R,
        all_nonzero
          (snd (@zipf_distribution.H_inv_at_divs R R_ops q (1 - s)
                  (R_lt (Rabs (1 - s)) (2 / 100000))
                  (if R_lt (Rabs (1 - s)) (2 / 100000)
                   then 0 else 1 / (1 - s)) y)))
  /\ (forall u : R,
        all_nonzero
          (snd (@zipf_distribution.iteration_divs R R_ops
                  (zipf_distribution.init_members n s q) u))).
Proof.
  split.
  { intros x Hx. split; [apply expxm1bx_divs_small; exact Hx|].
    split; [apply log1pxbx_divs_small; exact Hx|].
    cbn [In]. intros [E|[E|[E|[]]]]; subst x;
      rewrite Rabs_pos_eq in Hx; lra. }
  split.
  { intros Hnear. split.
    - rewrite init_members_spole. apply R_lt_spec. lra.
    - split.
      + rewrite init_members_rvs.
        replace (R_lt _ _) with true; [reflexivity|].
        symmetry. apply R_lt_spec. lra.
      + intros Hin.
        pose proof (init_members_divs_nonzero n s q) as Hnz.
        unfold all_nonzero in Hnz. rewrite Forall_forall in Hnz.
        specialize (Hnz _ Hin).
        unfold zipf_distribution.init_members_divs in Hin.
        assert (Ep : (abs (lit 1.0 - s)%rt <? zipf_distribution.epsilon)%rt
                     = true).
        { rewrite epsilon_R. rt_simpl. rewrite Q2R_unfold.
          replace (10 / 10 - s) with (1 - s) by lra.
          rewrite truncated_abs_test. apply R_lt_spec. lra. }
        rewrite Ep in Hin.
        repeat (rewrite dbind_divisors in Hin; cbv beta in Hin).
        cbn [snd dret app] in Hin.
        unfold zipf_distribution.H_at_divs,
          zipf_distribution.H_inv_at_divs in Hin.
        cbn [negb] in Hin.
        repeat (rewrite dbind_divisors in Hin; cbv beta in Hin).
        cbn [snd dret app] in Hin. rewrite !app_nil_r in Hin.
        assert (Hsmall : forall t : R,
                  In (1 - s)
                    (snd (@zipf_distribution.expxm1bx_divs R R_ops t))
                  \/ In (1 - s)
                       (snd (@zipf_distribution.log1pxbx_divs R R_ops t))
                  -> 2 / 100000 < Rabs (1 - s)).
        { intros t.
          unfold zipf_distribution.expxm1bx_divs,
            zipf_distribution.log1pxbx_divs.
          rewrite epsilon_R. rt_simpl. rewrite !Q2R_unfold.
          destruct (R_lt (2 / 100000) (Rabs t)) eqn:Et.
          - apply R_lt_spec in Et. cbn [snd ddiv In].
            intros [[<-|[]]|[<-|[]]]; exact Et.
          - unfold dbind, dret, ddiv. cbn [snd app In].
            intros [[E|[E|[E|[]]]]|[E|[E|[E|[]]]]];
              rewrite <- E; rewrite Rabs_pos_eq; lra. }
        repeat (apply in_app_or in Hin; destruct Hin as [Hin|Hin]);
          try (specialize (Hsmall _ (or_introl Hin)); lra);
          try (specialize (Hsmall _ (or_intror Hin)); lra). }
  split; [apply init_members_divs_value|].
  split; [apply init_members_divs_nonzero|].
  split.
  { intros x. apply H_at_divs_nonzero. apply not_below_epsilon_nonzero. }
  split.
  { intros y. apply H_inv_at_divs_nonzero. }
  intros u. apply iteration_divs_nonzero.
Qed.

(** * The claims at concrete samplers *)

Lemma example_table_constructed :
  @zipf_table_distribution.construct R R_ops 3 2 0 = Ok example_table.
Proof. reflexivity. Qed.

Lemma zero_engine_first : 0 <= zero_engine O <= 1 / 1000.
Proof. unfold zero_engine. lra. Qed.



Lemma pole_sampler_constructed :
  @zipf_distribution.construct R R_ops 8 1 0
  = Ok (zipf_distribution.init_members 8 1 0).
Proof. apply construct_R_ok. lra. Qed.

Lemma operator_call_rejection_inversion_witness :
  (exists fuel,
     @zipf_distribution.operator_call R R_ops R_random fuel example_zipf
       zero_engine
     = Some (0%Z, example_zipf, advance zero_engine))
  <-> (example_zipf = example_zipf
       /\ @zipf_distribution.rejection_inversion R R_ops R_random
            example_zipf zero_engine 0%Z (advance zero_engine)).
Proof.
  exact (@operator_call_rejection_inversion R R_ops R_random
           8 (-1 / 2) (-15 / 64) example_zipf zero_engine 0%Z example_zipf
           (advance zero_engine) example_zipf_constructed).
Defined.


Lemma example_table_draw :
  @zipf_table_distribution.operator_call R R_random example_table zero_engine
  = (fst (@discrete_draw R R_random example_table_pdf zero_engine),
     example_table, advance zero_engine).
Proof. reflexivity. Qed.

Lemma draw_leaves_sampler_unchanged_witness :
  example_zipf = example_zipf /\ example_table = example_table.
Proof.
  split.
  - exact (proj1 (@draw_leaves_sampler_unchanged R R_ops R_random
                    1 example_zipf example_table zero_engine)
             0%Z example_zipf (advance zero_engine)
             (example_zipf_draw zero_engine zero_engine_first)).
  - exact (proj1 (proj2 (@draw_leaves_sampler_unchanged R R_ops R_random
                           1 example_zipf example_table zero_engine))
             _ example_table (advance zero_engine) example_table_draw).
Defined.

Lemma pdf_contents_witness :
  Z.of_nat (List.length (zipf_table_distribution._pdf example_table))
  = (3 + 1)%Z
  /\ nth_error (zipf_table_distribution._pdf example_table) 0
     = Some (@lit R R_ops 0.0)
  /\ forall i : Z, (1 <= i <= 3)%Z ->
       nth_error (zipf_table_distribution._pdf example_table) (Z.to_nat i)
       = Some (@std_pow R R_ops (0 + IZR i) (- (2))).
Proof.
  refine (@pdf_contents R R_ops 3 2 0 example_table _
            example_table_constructed).
  discriminate.
Defined.


Lemma abs_zero_small : Rabs 0 <= 2 / 100000.
Proof. rewrite Rabs_R0. lra. Qed.

Lemma no_division_by_zero_witness :
  @zipf_distribution.expxm1bx_divs R R_ops 0
  = (1 + 0 / 2 * (1 + 0 / 3 * (1 + 0 / 4)), [4; 3; 2])
  /\ @zipf_distribution.log1pxbx_divs R R_ops 0
     = (1 - 0 * (1 / 2 - 0 * (1 / 3 - 0 * (1 / 4))), [2; 3; 4])
  /\ ~ In 0 [2; 3; 4].
Proof.
  exact (proj1 (no_division_by_zero 8 1 0) 0 abs_zero_small).
Defined.

(** * The table sampler on the canonical engine *)

Section DiscreteDraw.
Context {RealType : Type} {ops : RealOps RealType}.
Local Open Scope rt_scope.

(** What the loop of [std::lower_bound] establishes, sorted range or not:
    the element before the position returned compared below [val], and the
    element at the position did not. *)
Lemma lower_bound_from_spec (turns : nat) (cp : list RealType)
    (first len : nat) (val : RealType) :
  (len <= turns)%nat ->
  (first <= lower_bound_from turns cp first len val <= first + len)%nat
  /\ (lower_bound_from turns cp first len val = first
      \/ (nth (lower_bound_from turns cp first len val - 1) cp (lit 0.0)
          <? val) = true)
  /\ (lower_bound_from turns cp first len val = (first + len)%nat
      \/ (nth (lower_bound_from turns cp first len val) cp (lit 0.0)
          <? val) = false).
Proof.
  revert first len. induction turns as [|turns IH]; intros first len Hlen.
  - cbn [lower_bound_from].
    split; [lia|]. split; [left; reflexivity|left; lia].
  - cbn [lower_bound_from]. destruct (Nat.eqb_spec len 0) as [->|Hpos].
    + split; [lia|]. split; [left; reflexivity|left; lia].
    + assert (Hhalf : (Nat.div2 len < len)%nat)
        by (apply Nat.lt_div2; lia).
      cbv zeta. set (half := Nat.div2 len) in *. clearbody half.
      destruct (nth (first + half) cp (lit 0.0) <? val) eqn:Ecmp.
      * destruct (IH (S (first + half)) (len - half - 1)%nat ltac:(lia))
          as [Hr [Hlo Hhi]].
        set (r := lower_bound_from turns cp (S (first + half))
                    (len - half - 1) val) in *.
        split; [lia|]. split.
        -- right. destruct Hlo as [E|Hlo]; [|exact Hlo].
           rewrite E. cbn [Nat.sub]. rewrite Nat.sub_0_r. exact Ecmp.
        -- destruct Hhi as [E|Hhi]; [left; lia|right; exact Hhi].
      * destruct (IH first half ltac:(lia)) as [Hr [Hlo Hhi]].
        set (r := lower_bound_from turns cp first half val) in *.
        split; [lia|]. split; [exact Hlo|].
        right. destruct Hhi as [E|Hhi]; [|exact Hhi].
        rewrite E. exact Ecmp.
Qed.

Lemma lower_bound_spec (cp : list RealType) (val : RealType) :
  (lower_bound cp val <= List.length cp)%nat
  /\ (lower_bound cp val = 0%nat
      \/ (nth (lower_bound cp val - 1) cp (lit 0.0) <? val) = true)
  /\ (lower_bound cp val = List.length cp
      \/ (nth (lower_bound cp val) cp (lit 0.0) <? val) = false).
Proof.
  unfold lower_bound.
  destruct (lower_bound_from_spec (List.length cp) cp 0 (List.length cp) val
              (Nat.le_refl _)) as [Hr [Hlo Hhi]].
  split; [lia|]. split; assumption.
Qed.

Lemma length_partial_sum_from (acc : RealType) (ps : list RealType) :
  List.length (partial_sum_from acc ps) = List.length ps.
Proof.
  revert acc. induction ps as [|p ps IH]; intros acc; cbn; [reflexivity|].
  rewrite IH. reflexivity.
Qed.

Lemma length_partial_sum (ps : list RealType) :
  List.length (partial_sum ps) = List.length ps.
Proof.
  destruct ps as [|p ps]; cbn; [reflexivity|].
  rewrite length_partial_sum_from. reflexivity.
Qed.

Lemma length_set_last (cp : list RealType) :
  List.length (set_last cp) = List.length cp.
Proof.
  induction cp as [|c [|c' cp] IH]; [reflexivity|reflexivity|].
  change (set_last (c :: c' :: cp)) with (c :: set_last (c' :: cp)).
  cbn [List.length]. rewrite IH. reflexivity.
Qed.

Lemma set_last_last (cp : list RealType) (d : RealType) :
  cp <> [] -> nth (List.length cp - 1) (set_last cp) d = lit 1.0.
Proof.
  induction cp as [|c [|c' cp] IH]; intros Hne;
    [contradiction|reflexivity|].
  change (set_last (c :: c' :: cp)) with (c :: set_last (c' :: cp)).
  specialize (IH ltac:(discriminate)).
  replace (List.length (c :: c' :: cp) - 1)%nat
    with (S (List.length (c' :: cp) - 1)) by (cbn [List.length]; lia).
  cbn [nth]. exact IH.
Qed.

Lemma set_last_head (c c' : RealType) (cp : list RealType) (d : RealType) :
  nth 0 (set_last (c :: c' :: cp)) d = c.
Proof. reflexivity. Qed.

(** The cumulated probabilities of at least two weights: as many as the
    weights, the first is the first weight over the sum, the last is 1.0. *)
Lemma cumulative_shape (w w' : RealType) (ws : list RealType) :
  exists c cp,
    cumulative (w :: w' :: ws) = c :: cp
    /\ List.length (c :: cp) = List.length (w :: w' :: ws)
    /\ c = w / accumulate (w :: w' :: ws)
    /\ nth (List.length (w :: w' :: ws) - 1) (c :: cp) (lit 0.0) = lit 1.0.
Proof.
  unfold cumulative. cbn [List.length Nat.ltb Nat.leb].
  set (sum := accumulate (w :: w' :: ws)).
  set (all := set_last (partial_sum (normalize (w :: w' :: ws) sum))).
  assert (Hlen : List.length all = List.length (w :: w' :: ws)).
  { unfold all. rewrite length_set_last, length_partial_sum.
    unfold normalize. apply length_map. }
  assert (Hhead : nth 0 all (lit 0.0) = w / sum) by reflexivity.
  assert (Hlast : nth (List.length (w :: w' :: ws) - 1) all (lit 0.0)
                  = lit 1.0).
  { unfold all. rewrite <- (length_map (fun x => x / sum) (w :: w' :: ws)).
    fold (normalize (w :: w' :: ws) sum).
    rewrite <- length_partial_sum. apply set_last_last.
    cbn. discriminate. }
  destruct all as [|c cp] eqn:Eall; [discriminate Hlen|].
  exists c, cp. split; [reflexivity|]. split; [exact Hlen|].
  split; [exact Hhead|exact Hlast].
Qed.

Import zipf_table_distribution.

(** X2: a draw of the table sampler on the canonical engine, in every
    arithmetic.  For [n >= 1], when the canonical number drawn compares
    above the first cumulated probability, which is the quotient of the
    stored weight [0.0] by the sum of the weights, and does not compare
    above [1.0], the value returned lies between [min()] and [max()],
    which are 1 and [n]. *)
Theorem table_sampler_support
    (n : Z) (s q : RealType) (this : t) (g : canonical_engine) :
  (1 <= n)%Z ->
  construct n s q = Ok this ->
  (lit 0.0 / accumulate (_pdf this) <? g O) = true ->
  (lit 1.0 <? g O) = false ->
  (min this
   <= fst (fst (@operator_call RealType canonical_random this g))
   <= max this)%Z.
Proof.
  intros Hn Hc Hzero Hone.
  assert (E : _pdf this
              = lit 0.0
                :: map (fun j => weight s q (1 + Z.of_nat j))
                     (seq 0 (Z.to_nat n))
              /\ weights (_dist this) = _pdf this /\ _n this = n).
  { rewrite construct_unfold_table in Hc. injection Hc as <-.
    cbn [_pdf _dist weights _n].
    split; [apply init_pdf|split; reflexivity]. }
  destruct E as [Epdf [Ew En']].
  unfold operator_call, min, max.
  cbn [discrete_draw canonical_random]. rewrite Ew, En'.
  rewrite Epdf in *. clear Epdf Ew En' Hc.
  destruct (Z.to_nat n) as [|m] eqn:En; [lia|].
  cbn [seq map] in *.
  set (w' := weight s q (1 + Z.of_nat 0)) in *.
  set (ws := map (fun j => weight s q (1 + Z.of_nat j)) (seq 1 m)) in *.
  assert (Hlen : List.length (lit 0.0 :: w' :: ws) = S (S m)).
  { unfold ws. cbn [List.length]. rewrite length_map, length_seq.
    reflexivity. }
  destruct (cumulative_shape (lit 0.0) w' ws)
    as [c [cp [Ecp [Hl [Ec Hlast]]]]].
  rewrite Ecp. cbn [fst].
  destruct (lower_bound_spec (c :: cp) (g O)) as [Hr [Hlo Hhi]].
  set (r := lower_bound (c :: cp) (g O)) in *.
  rewrite Hl in Hr, Hhi. rewrite Hlen in Hr, Hhi, Hlast.
  assert (Hr0 : r <> 0%nat).
  { intros E. rewrite E in Hhi. destruct Hhi as [Hhi|Hhi]; [discriminate|].
    cbn [nth] in Hhi. rewrite Ec, Hzero in Hhi. discriminate. }
  assert (Hrn : r <> S (S m)).
  { intros E. destruct Hlo as [Hlo|Hlo]; [lia|].
    rewrite E in Hlo. rewrite Hlast, Hone in Hlo. discriminate. }
  lia.
Qed.

End DiscreteDraw.

Lemma table_weights_nonneg (n : Z) (s q : R) :
  -1 / 2 < q ->
  Forall (fun x => 0 <= x)
    (fst (@zipf_table_distribution.init R R_ops [] n s q)).
Proof.
  intros Hq. rewrite init_pdf. constructor.
  - rt_simpl. rewrite Q2R_unfold. lra.
  - apply Forall_forall. intros x Hx. apply in_map_iff in Hx as [j [<- _]].
    unfold weight. rt_simpl. rewrite R_pow_pos.
    + left. apply Rpower_pos.
    + assert (1 <= IZR (1 + Z.of_nat j)) by (apply IZR_le; lia). lra.
Qed.

Lemma accumulate_from_nonneg (ws : list R) (acc : R) :
  Forall (fun x => 0 <= x) ws -> acc <= fold_left Rplus ws acc.
Proof.
  intros Hall. revert acc.
  induction Hall as [|w ws Hw _ IH]; intros acc; cbn [fold_left]; [lra|].
  specialize (IH (acc + w)). lra.
Qed.

Lemma nth_nonneg (l : list R) (d : R) (i : nat) :
  Forall (fun x => 0 <= x) l -> 0 <= d -> 0 <= nth i l d.
Proof.
  intros Hall Hd. revert i.
  induction Hall as [|x l Hx _ IH]; intros [|i]; cbn [nth];
    try assumption. apply IH.
Qed.

Lemma partial_sum_from_nonneg (acc : R) (ps : list R) :
  0 <= acc -> Forall (fun x => 0 <= x) ps ->
  Forall (fun x => 0 <= x) (@partial_sum_from R R_ops acc ps).
Proof.
  intros Hacc Hall. revert acc Hacc.
  induction Hall as [|p ps Hp _ IH]; intros acc Hacc;
    cbn [partial_sum_from]; [constructor|].
  rt_simpl. constructor; [lra|]. apply IH. lra.
Qed.

Lemma set_last_nonneg (cp : list R) :
  Forall (fun x => 0 <= x) cp ->
  Forall (fun x => 0 <= x) (@set_last R R_ops cp).
Proof.
  induction cp as [|c [|c' cp] IH]; intros Hall.
  - constructor.
  - cbn [set_last]. constructor; [|constructor].
    rt_simpl. rewrite Q2R_unfold. lra.
  - change (set_last (c :: c' :: cp)) with (c :: set_last (c' :: cp)).
    inversion Hall as [|? ? Hc Hrest]; subst.
    constructor; [exact Hc|]. apply IH. exact Hrest.
Qed.

(** The cumulated probabilities of non-negative weights are not
    negative. *)
Lemma cumulative_nonneg (ws : list R) :
  Forall (fun x => 0 <= x) ws ->
  Forall (fun x => 0 <= x) (@cumulative R R_ops ws).
Proof.
  intros Hall. unfold cumulative.
  destruct (List.length ws <? 2)%nat; [constructor|].
  apply set_last_nonneg.
  assert (Hsum : 0 <= @accumulate R R_ops ws).
  { unfold accumulate. rt_simpl. rewrite Q2R_unfold.
    pose proof (accumulate_from_nonneg ws (0 / 10) Hall). lra. }
  assert (Hnorm : Forall (fun x => 0 <= x)
                    (@normalize R R_ops ws (accumulate ws))).
  { unfold normalize. apply Forall_forall. intros x Hx.
    apply in_map_iff in Hx as [w [<- Hw]]. rt_simpl.
    rewrite Forall_forall in Hall. specialize (Hall w Hw).
    destruct Hsum as [Hpos|<-].
    - apply Rmult_le_pos; [exact Hall|].
      apply Rlt_le, Rinv_0_lt_compat. exact Hpos.
    - unfold Rdiv. rewrite Rinv_0. lra. }
  destruct (normalize ws (accumulate ws)) as [|p ps];
    cbn [partial_sum]; [constructor|].
  inversion Hnorm as [|? ? Hp Hps]; subst.
  constructor; [exact Hp|]. apply partial_sum_from_nonneg; assumption.
Qed.

(** X20: the weight 0 stored for the value 0 does not keep 0 out.  In
    exact real arithmetic, for [n >= 1] and [q > -1/2]: the weights handed
    to [std::discrete_distribution] have a positive sum, and when the
    canonical number drawn is 0 the table sampler returns 0, which is below
    [min()]. *)
Theorem table_draw_at_zero
    (n : Z) (s q : R) (this : R_zipf_table) (g : @canonical_engine R) :
  (1 <= n)%Z -> -1 / 2 < q -> g O = 0 ->
  @zipf_table_distribution.construct R R_ops n s q = Ok this ->
  0 < @accumulate R R_ops (zipf_table_distribution._pdf this)
  /\ fst (fst (@zipf_table_distribution.operator_call R R_random this g))
     = 0%Z
  /\ (0 < zipf_table_distribution.min this)%Z.
Proof.
  intros Hn Hq Hg Hc.
  assert (E : zipf_table_distribution._pdf this
              = fst (zipf_table_distribution.init [] n s q)
              /\ weights (zipf_table_distribution._dist this)
                 = zipf_table_distribution._pdf this).
  { rewrite construct_unfold_table in Hc. injection Hc as <-.
    split; reflexivity. }
  destruct E as [Epdf Ew].
  pose proof (table_weights_nonneg n s q Hq) as Hnn.
  rewrite <- Epdf in Hnn.
  assert (Hshape : exists w' ws,
             zipf_table_distribution._pdf this = 0 :: w' :: ws /\ 0 < w').
  { rewrite Epdf, init_pdf.
    destruct (Z.to_nat n) as [|m] eqn:En; [lia|]. cbn [seq map].
    eexists. eexists. split.
    - rt_simpl. rewrite Q2R_unfold. f_equal. lra.
    - change (1 + Z.of_nat 0)%Z with 1%Z.
      unfold weight. rt_simpl. rewrite R_pow_pos by lra. apply Rpower_pos. }
  destruct Hshape as [w' [ws [Eshape Hw']]].
  split.
  { rewrite Eshape in *. unfold accumulate. cbn [fold_left]. rt_simpl.
    rewrite Q2R_unfold.
    inversion Hnn as [|? ? _ Hrest]; subst.
    inversion Hrest as [|? ? _ Hws]; subst.
    pose proof (accumulate_from_nonneg ws (0 / 10 + 0 + w') Hws). lra. }
  split; [|reflexivity].
  unfold zipf_table_distribution.operator_call.
  cbn [discrete_draw R_random canonical_random]. rewrite Ew.
  pose proof (cumulative_nonneg _ Hnn) as Hcp.
  destruct (cumulative (zipf_table_distribution._pdf this)) as [|c cp];
    [reflexivity|].
  cbn [fst].
  destruct (lower_bound_spec (c :: cp) (g O)) as [_ [Hlo _]].
  destruct Hlo as [->|Hlo]; [reflexivity|exfalso].
  rewrite Hg in Hlo. rt_simpl. apply R_lt_spec in Hlo.
  pose proof (nth_nonneg (c :: cp) (Q2R 0.0)
                (lower_bound (c :: cp) 0 - 1) Hcp) as Hge.
  rewrite Q2R_unfold in Hge. specialize (Hge ltac:(lra)).
  rewrite Q2R_unfold in Hlo. lra.
Qed.

(** * The rejection-inversion sampler in the generic regime *)

Lemma Rpower_neg_le (u v s : R) :
  0 <= s -> 0 < u -> u <= v -> Rpower v (- s) <= Rpower u (- s).
Proof.
  intros Hs Hu Huv. unfold Rpower.
  destruct (Req_dec u v) as [->|Hne]; [lra|].
  assert (ln u < ln v) by (apply ln_increasing; lra).
  destruct (Req_dec s 0) as [->|Hs0].
  - rewrite Ropp_0, !Rmult_0_l. lra.
  - left. apply exp_increasing.
    assert (0 < s * (ln v - ln u)) by (apply Rmult_lt_0_compat; lra). lra.
Qed.

(** h (a + t) + h (a - t) >= 2 h a *)
Lemma hat_midpoint (a t s : R) :
  0 <= s -> 0 <= t -> t < a ->
  2 * Rpower a (- s) <= Rpower (a + t) (- s) + Rpower (a - t) (- s).
Proof.
  intros Hs Ht Hta.
  pose proof (Rpower_pos (a + t) (- s)) as HX.
  pose proof (Rpower_pos (a - t) (- s)) as HY.
  pose proof (Rpower_pos a (- s)) as HZ.
  assert (HXY : Rpower a (- s) * Rpower a (- s)
                <= Rpower (a + t) (- s) * Rpower (a - t) (- s)).
  { rewrite !Rpower_mult_distr by lra.
    apply Rpower_neg_le; [exact Hs|nra|nra]. }
  set (X := Rpower (a + t) (- s)) in *.
  set (Y := Rpower (a - t) (- s)) in *.
  set (Z := Rpower a (- s)) in *.
  destruct (Rle_dec (2 * Z) (X + Y)) as [|Hn]; [assumption|exfalso].
  apply Rnot_le_lt in Hn.
  assert (H1 : (X + Y) * (X + Y) < (2 * Z) * (2 * Z)).
  { apply Rmult_le_0_lt_compat; lra. }
  pose proof (Rle_0_sqr (X - Y)) as H2. unfold Rsqr in H2.
  lra.
Qed.


(** The integral of the hat over [a - 1/2, a + 1/2] is at least its value
    at the midpoint. *)
Lemma hat_integral_midpoint (a s : R) :
  0 <= s -> 1 - s <> 0 -> 1 / 2 < a ->
  Rpower (a - 1 / 2) (1 - s) / (1 - s) + Rpower a (- s)
  <= Rpower (a + 1 / 2) (1 - s) / (1 - s).
Proof.
  intros Hs Ho Ha.
  set (o := 1 - s) in *.
  set (Z := Rpower a (- s)).
  set (P := fun x : R => Rpower x o).
  set (G := (mult_real_fct (/ o) (comp P (fct_cte a + id)%F)
             - mult_real_fct (/ o) (comp P (fct_cte a - id)%F)
             - mult_real_fct (2 * Z) id)%F).
  set (G' := fun c : R =>
               / o * (o * Rpower (a + c) (o - 1) * (0 + 1))
               - / o * (o * Rpower (a - c) (o - 1) * (0 - 1))
               - 2 * Z * 1).
  assert (HD : forall c : R, 0 <= c <= 1 / 2 -> derivable_pt_lim G c (G' c)).
  { intros c Hc. unfold G, G'.
    apply derivable_pt_lim_minus; [apply derivable_pt_lim_minus|].
    - apply derivable_pt_lim_scal. apply derivable_pt_lim_comp.
      + apply derivable_pt_lim_plus;
          [apply derivable_pt_lim_const|apply derivable_pt_lim_id].
      + apply derivable_pt_lim_power. unfold plus_fct, fct_cte, id. lra.
    - apply derivable_pt_lim_scal. apply derivable_pt_lim_comp.
      + apply derivable_pt_lim_minus;
          [apply derivable_pt_lim_const|apply derivable_pt_lim_id].
      + apply derivable_pt_lim_power. unfold minus_fct, fct_cte, id. lra.
    - apply derivable_pt_lim_scal. apply derivable_pt_lim_id. }
  destruct (MVT_cor2 G G' 0 (1 / 2) ltac:(lra) HD) as [c [E Hc]].
  assert (HG' : 0 <= G' c).
  { unfold G'. replace (o - 1) with (- s) by (unfold o; lra).
    pose proof (hat_midpoint a c s Hs ltac:(lra) ltac:(lra)) as Hm.
    fold Z in Hm.
    replace (/ o * (o * Rpower (a + c) (- s) * (0 + 1))
             - / o * (o * Rpower (a - c) (- s) * (0 - 1)) - 2 * Z * 1)
      with (Rpower (a + c) (- s) + Rpower (a - c) (- s) - 2 * Z)
      by (field; exact Ho).
    lra. }
  assert (HG0 : G 0 = 0).
  { unfold G, P, minus_fct, mult_real_fct, comp, plus_fct, fct_cte, id.
    replace (a + 0) with a by lra. replace (a - 0) with a by lra. lra. }
  assert (HG1 : G (1 / 2)
                = Rpower (a + 1 / 2) o / o - Rpower (a - 1 / 2) o / o - Z).
  { unfold G, P, minus_fct, mult_real_fct, comp, plus_fct, fct_cte, id.
    field. exact Ho. }
  rewrite HG0, HG1 in E.
  assert (0 <= G' c * (1 / 2 - 0)) by (apply Rmult_le_pos; lra).
  lra.
Qed.

Lemma power_inverse (a o : R) :
  0 < a -> o <> 0 -> Rpower (Rpower a o / o * o) (1 / o) = a.
Proof.
  intros Ha Ho.
  replace (Rpower a o / o * o) with (Rpower a o) by (field; exact Ho).
  rewrite Rpower_mult. replace (o * (1 / o)) with 1 by (field; exact Ho).
  apply Rpower_1. exact Ha.
Qed.


Lemma power_inverse_lt (o y1 y2 : R) :
  o <> 0 -> 0 < y1 * o -> 0 < y2 * o -> y1 < y2 ->
  Rpower (y1 * o) (1 / o) < Rpower (y2 * o) (1 / o).
Proof.
  intros Ho H1 H2 Hlt.
  destruct (Rlt_dec 0 o) as [Hpos|Hneg].
  - apply Rlt_Rpower_l.
    + apply Rdiv_lt_0_compat; lra.
    + split; [exact H1|]. apply Rmult_lt_compat_r; lra.
  - assert (Ho' : o < 0) by lra.
    replace (1 / o) with (- (1 / - o)) by (field; exact Ho).
    apply Rpower_neg_decreasing.
    + apply Rdiv_lt_0_compat; lra.
    + exact H2.
    + nra.
Qed.

(** [x |-> x^o / o] is increasing on the positive reals. *)
Lemma power_over_exponent_lt (o a b : R) :
  o <> 0 -> 0 < a -> a < b -> Rpower a o / o < Rpower b o / o.
Proof.
  intros Ho Ha Hab.
  destruct (Rlt_dec 0 o) as [Hpos|Hneg].
  - apply Rmult_lt_compat_r; [apply Rinv_0_lt_compat; exact Hpos|].
    apply Rlt_Rpower_l; lra.
  - assert (Ho' : 0 < - o) by lra.
    assert (Rpower b o < Rpower a o).
    { replace o with (- - o) by lra. apply Rpower_neg_decreasing; lra. }
    assert (Hi : / o < 0) by (apply Rinv_lt_0_compat; lra).
    unfold Rdiv. nra.
Qed.

Section GenericRegime.
Import zipf_distribution.






End GenericRegime.

(** * The rejection-inversion sampler at the exponent 1, over exact reals *)

Lemma Rpower_minus_one (x : R) : 0 < x -> Rpower x (- (1)) = / x.
Proof. intros Hx. rewrite Rpower_Ropp, Rpower_1 by exact Hx. reflexivity. Qed.

(** The same bound for the hat [1 / x], whose integral is the logarithm. *)
Lemma log_integral_midpoint (a : R) :
  1 / 2 < a -> ln (a - 1 / 2) + / a <= ln (a + 1 / 2).
Proof.
  intros Ha.
  set (G := (comp ln (fct_cte a + id)%F - comp ln (fct_cte a - id)%F
             - mult_real_fct (2 * / a) id)%F).
  set (G' := fun c : R =>
               / (a + c) * (0 + 1) - / (a - c) * (0 - 1) - 2 * / a * 1).
  assert (HD : forall c : R, 0 <= c <= 1 / 2 -> derivable_pt_lim G c (G' c)).
  { intros c Hc. unfold G, G'.
    apply derivable_pt_lim_minus; [apply derivable_pt_lim_minus|].
    - apply derivable_pt_lim_comp.
      + apply derivable_pt_lim_plus;
          [apply derivable_pt_lim_const|apply derivable_pt_lim_id].
      + apply derivable_pt_lim_ln. unfold plus_fct, fct_cte, id. lra.
    - apply derivable_pt_lim_comp.
      + apply derivable_pt_lim_minus;
          [apply derivable_pt_lim_const|apply derivable_pt_lim_id].
      + apply derivable_pt_lim_ln. unfold minus_fct, fct_cte, id. lra.
    - apply derivable_pt_lim_scal. apply derivable_pt_lim_id. }
  destruct (MVT_cor2 G G' 0 (1 / 2) ltac:(lra) HD) as [c [E Hc]].
  assert (HG' : 0 <= G' c).
  { unfold G'.
    pose proof (hat_midpoint a c 1 ltac:(lra) ltac:(lra) ltac:(lra)) as Hm.
    rewrite !Rpower_minus_one in Hm by lra. lra. }
  assert (HG0 : G 0 = 0).
  { unfold G, minus_fct, mult_real_fct, comp, plus_fct, fct_cte, id.
    replace (a + 0) with a by lra. replace (a - 0) with a by lra. lra. }
  assert (HG1 : G (1 / 2) = ln (a + 1 / 2) - ln (a - 1 / 2) - / a).
  { unfold G, minus_fct, mult_real_fct, comp, plus_fct, fct_cte, id. lra. }
  rewrite HG0, HG1 in E.
  assert (0 <= G' c * (1 / 2 - 0)) by (apply Rmult_le_pos; lra).
  lra.
Qed.

Section AtPole.
Import zipf_distribution.

Lemma expxm1bx_zero : @expxm1bx R R_ops 0 = 1.
Proof.
  rewrite (proj2 (expxm1bx_R 0)); [lra|]. rewrite Rabs_R0. lra.
Qed.

Lemma log1pxbx_zero : @log1pxbx R R_ops 0 = 1.
Proof.
  rewrite (proj2 (log1pxbx_R 0)); [lra|]. rewrite Rabs_R0. lra.
Qed.




End AtPole.

(** * The antiderivative and its inverse in closed form

    [H_exact] and [H_inv_exact] are what [H] and [H_inv] compute, up to the
    shift by [q], when the exponent is 1 or has [|1 - s| >= 1]. *)

Lemma H_exact_lt (s a b : R) :
  0 < a -> a < b -> H_exact s a < H_exact s b.
Proof.
  intros Ha Hab. unfold H_exact. destruct (Req_dec_T s 1) as [_|Hs].
  - apply ln_increasing; assumption.
  - apply power_over_exponent_lt; lra.
Qed.

Lemma H_exact_le (s a b : R) :
  0 < a -> a <= b -> H_exact s a <= H_exact s b.
Proof.
  intros Ha [Hab| ->]; [left; apply H_exact_lt; assumption|right; reflexivity].
Qed.

Lemma H_exact_in_range (s a : R) : 0 < a -> H_exact_range s (H_exact s a).
Proof.
  intros Ha. unfold H_exact_range, H_exact.
  destruct (Req_dec_T s 1) as [E|Hs]; [left; exact E|right].
  replace (Rpower a (1 - s) / (1 - s) * (1 - s)) with (Rpower a (1 - s))
    by (field; lra).
  apply Rpower_pos.
Qed.

Lemma H_inv_exact_pos (s y : R) : 0 < H_inv_exact s y.
Proof.
  unfold H_inv_exact. destruct (Req_dec_T s 1);
    [apply exp_pos|apply Rpower_pos].
Qed.

Lemma H_inv_exact_H (s a : R) : 0 < a -> H_inv_exact s (H_exact s a) = a.
Proof.
  intros Ha. unfold H_inv_exact, H_exact. destruct (Req_dec_T s 1) as [_|Hs].
  - apply exp_ln. exact Ha.
  - apply power_inverse; lra.
Qed.

Lemma H_exact_H_inv (s y : R) :
  H_exact_range s y -> H_exact s (H_inv_exact s y) = y.
Proof.
  intros Hy. unfold H_inv_exact, H_exact. destruct (Req_dec_T s 1) as [E|Hs].
  - apply ln_exp.
  - destruct Hy as [E|Hy]; [contradiction|].
    rewrite Rpower_mult.
    replace (1 / (1 - s) * (1 - s)) with 1 by (field; lra).
    rewrite Rpower_1 by exact Hy. field. lra.
Qed.

Lemma H_inv_exact_lt (s y1 y2 : R) :
  H_exact_range s y1 -> H_exact_range s y2 -> y1 < y2 ->
  H_inv_exact s y1 < H_inv_exact s y2.
Proof.
  intros H1 H2 Hlt. unfold H_inv_exact. destruct (Req_dec_T s 1) as [E|Hs].
  - apply exp_increasing. exact Hlt.
  - destruct H1 as [E|H1]; [contradiction|].
    destruct H2 as [E|H2]; [contradiction|].
    apply power_inverse_lt; lra.
Qed.

Lemma H_inv_exact_le (s y1 y2 : R) :
  H_exact_range s y1 -> H_exact_range s y2 -> y1 <= y2 ->
  H_inv_exact s y1 <= H_inv_exact s y2.
Proof.
  intros H1 H2 [Hlt| ->]; [left; apply H_inv_exact_lt; assumption|].
  right; reflexivity.
Qed.

Lemma H_exact_midpoint (s a : R) :
  0 <= s -> 1 / 2 < a ->
  H_exact s (a - 1 / 2) + Rpower a (- s) <= H_exact s (a + 1 / 2).
Proof.
  intros Hs Ha. unfold H_exact. destruct (Req_dec_T s 1) as [->|Hne].
  - rewrite Rpower_minus_one by lra. apply log_integral_midpoint. exact Ha.
  - apply hat_integral_midpoint; lra.
Qed.

Lemma H_exact_range_between (s y1 y2 u : R) :
  H_exact_range s y1 -> H_exact_range s y2 -> y1 <= u <= y2 ->
  H_exact_range s u.
Proof.
  unfold H_exact_range. intros [E|H1] [E'|H2] Hu; try (left; assumption).
  right. destruct (Rlt_dec 0 (1 - s)); nra.
Qed.

(** * The truncated series of the helpers *)

(** A function whose derivative is non-negative between [a] and [b] does
    not decrease from [a] to [b]. *)
Lemma nondecreasing_between (f f' : R -> R) (a b : R) :
  a <= b ->
  (forall c : R, a <= c <= b -> derivable_pt_lim f c (f' c)) ->
  (forall c : R, a <= c <= b -> 0 <= f' c) ->
  f a <= f b.
Proof.
  intros [Hab| ->] Hd Hpos; [|lra].
  destruct (MVT_cor2 f f' a b Hab Hd) as [c [E Hc]].
  assert (0 <= f' c * (b - a)).
  { apply Rmult_le_pos; [apply Hpos|]; lra. }
  lra.
Qed.

(** The derivative of a polynomial of degree five. *)
Lemma derivable_pt_lim_poly5 (a0 a1 a2 a3 a4 a5 x : R) :
  derivable_pt_lim
    (fun t => a0 + a1 * t + a2 * t ^ 2 + a3 * t ^ 3 + a4 * t ^ 4 + a5 * t ^ 5)
    x
    (a1 + 2 * a2 * x + 3 * a3 * x ^ 2 + 4 * a4 * x ^ 3 + 5 * a5 * x ^ 4).
Proof.
  apply derivable_pt_lim_ext
    with (f := (fct_cte a0 + mult_real_fct a1 (fun t => t ^ 1)
                + mult_real_fct a2 (fun t => t ^ 2)
                + mult_real_fct a3 (fun t => t ^ 3)
                + mult_real_fct a4 (fun t => t ^ 4)
                + mult_real_fct a5 (fun t => t ^ 5))%F).
  - intros z. unfold plus_fct, mult_real_fct, fct_cte. ring.
  - replace (a1 + 2 * a2 * x + 3 * a3 * x ^ 2 + 4 * a4 * x ^ 3
             + 5 * a5 * x ^ 4)
      with (0 + a1 * (INR 1 * x ^ pred 1) + a2 * (INR 2 * x ^ pred 2)
            + a3 * (INR 3 * x ^ pred 3) + a4 * (INR 4 * x ^ pred 4)
            + a5 * (INR 5 * x ^ pred 5))
      by (simpl; ring).
    repeat apply derivable_pt_lim_plus;
      try (apply derivable_pt_lim_scal; apply derivable_pt_lim_pow).
    apply derivable_pt_lim_const.
Qed.

(** ** The series of [log1pxbx] *)

Lemma log_series_remainder (x : R) :
  - (1 / 5) <= x ->
  (0 <= x ->
   0 <= ln (1 + x) - (x - x ^ 2 / 2 + x ^ 3 / 3 - x ^ 4 / 4) <= x ^ 5 / 4)
  /\ (x <= 0 ->
      x ^ 5 / 4 <= ln (1 + x) - (x - x ^ 2 / 2 + x ^ 3 / 3 - x ^ 4 / 4) <= 0).
Proof.
  intros Hx.
  set (L := fun t : R =>
              ln (1 + t)
              - (0 + 1 * t + - (1 / 2) * t ^ 2 + 1 / 3 * t ^ 3
                 + - (1 / 4) * t ^ 4 + 0 * t ^ 5)).
  set (L' := fun t : R =>
               / (1 + t) * (0 + 1)
               - (1 + 2 * - (1 / 2) * t + 3 * (1 / 3) * t ^ 2
                  + 4 * - (1 / 4) * t ^ 3 + 5 * 0 * t ^ 4)).
  set (M := fun t : R =>
              (0 + 1 * t + - (1 / 2) * t ^ 2 + 1 / 3 * t ^ 3
               + - (1 / 4) * t ^ 4 + 1 / 4 * t ^ 5)
              - ln (1 + t)).
  set (M' := fun t : R =>
               (1 + 2 * - (1 / 2) * t + 3 * (1 / 3) * t ^ 2
                + 4 * - (1 / 4) * t ^ 3 + 5 * (1 / 4) * t ^ 4)
               - / (1 + t) * (0 + 1)).
  assert (Dln : forall t, -1 < t ->
                  derivable_pt_lim (fun t => ln (1 + t)) t
                    (/ (1 + t) * (0 + 1))).
  { intros t Ht.
    apply (derivable_pt_lim_comp (fct_cte 1 + id)%F ln).
    - apply derivable_pt_lim_plus;
        [apply derivable_pt_lim_const|apply derivable_pt_lim_id].
    - apply derivable_pt_lim_ln. unfold plus_fct, fct_cte, id. lra. }
  assert (DL : forall t, -1 < t -> derivable_pt_lim L t (L' t)).
  { intros t Ht. unfold L, L'.
    apply (derivable_pt_lim_minus (fun t => ln (1 + t))).
    - apply Dln; exact Ht.
    - apply derivable_pt_lim_poly5. }
  assert (DM : forall t, -1 < t -> derivable_pt_lim M t (M' t)).
  { intros t Ht. unfold M, M'.
    apply (derivable_pt_lim_minus _ (fun t => ln (1 + t))).
    - apply derivable_pt_lim_poly5.
    - apply Dln; exact Ht. }
  assert (PL : forall t, - (1 / 5) <= t -> 0 <= L' t).
  { intros t Ht. unfold L'.
    assert (Hi : 0 < / (1 + t)) by (apply Rinv_0_lt_compat; lra).
    replace (/ (1 + t) * (0 + 1)
             - (1 + 2 * - (1 / 2) * t + 3 * (1 / 3) * t ^ 2
                + 4 * - (1 / 4) * t ^ 3 + 5 * 0 * t ^ 4))
      with (/ (1 + t) * (t ^ 2 * t ^ 2)) by (field; lra).
    apply Rmult_le_pos; [lra|]. apply Rmult_le_pos; apply pow2_ge_0. }
  assert (PM : forall t, - (1 / 5) <= t -> 0 <= M' t).
  { intros t Ht. unfold M'.
    assert (Hi : 0 < / (1 + t)) by (apply Rinv_0_lt_compat; lra).
    replace ((1 + 2 * - (1 / 2) * t + 3 * (1 / 3) * t ^ 2
              + 4 * - (1 / 4) * t ^ 3 + 5 * (1 / 4) * t ^ 4)
             - / (1 + t) * (0 + 1))
      with (/ (1 + t) * ((t ^ 2 * t ^ 2) * ((1 + 5 * t) / 4)))
      by (field; lra).
    apply Rmult_le_pos; [lra|]. apply Rmult_le_pos; [|lra].
    apply Rmult_le_pos; apply pow2_ge_0. }
  assert (L0 : L 0 = 0).
  { unfold L. replace (1 + 0) with 1 by lra. rewrite ln_1. ring. }
  assert (M0 : M 0 = 0).
  { unfold M. replace (1 + 0) with 1 by lra. rewrite ln_1. ring. }
  assert (EL : L x = ln (1 + x) - (x - x ^ 2 / 2 + x ^ 3 / 3 - x ^ 4 / 4))
    by (unfold L; field).
  assert (EM : M x = x ^ 5 / 4
                     - (ln (1 + x) - (x - x ^ 2 / 2 + x ^ 3 / 3 - x ^ 4 / 4)))
    by (unfold M; field).
  split; intros Hs.
  - pose proof (nondecreasing_between L L' 0 x Hs
                  ltac:(intros; apply DL; lra) ltac:(intros; apply PL; lra)).
    pose proof (nondecreasing_between M M' 0 x Hs
                  ltac:(intros; apply DM; lra) ltac:(intros; apply PM; lra)).
    lra.
  - pose proof (nondecreasing_between L L' x 0 Hs
                  ltac:(intros; apply DL; lra) ltac:(intros; apply PL; lra)).
    pose proof (nondecreasing_between M M' x 0 Hs
                  ltac:(intros; apply DM; lra) ltac:(intros; apply PM; lra)).
    lra.
Qed.

(** ** The series of [expxm1bx] *)

Lemma exp_series_remainder (x : R) :
  x <= 4 ->
  (0 <= x ->
   0 <= exp x - (1 + x + x ^ 2 / 2 + x ^ 3 / 6 + x ^ 4 / 24) <= x ^ 5 / 24)
  /\ (x <= 0 ->
      x ^ 5 / 24
      <= exp x - (1 + x + x ^ 2 / 2 + x ^ 3 / 6 + x ^ 4 / 24) <= 0).
Proof.
  intros Hx.
  set (P := fun a5 t : R =>
              1 + 1 * t + 1 / 2 * t ^ 2 + 1 / 6 * t ^ 3 + 1 / 24 * t ^ 4
              + a5 * t ^ 5).
  set (P' := fun a5 t : R =>
               1 + 2 * (1 / 2) * t + 3 * (1 / 6) * t ^ 2
               + 4 * (1 / 24) * t ^ 3 + 5 * a5 * t ^ 4).
  set (N := fun t : R => exp (- t)).
  set (F := fun a5 t : R => P a5 t * N t).
  set (F' := fun a5 t : R => P' a5 t * N t + P a5 t * (exp (- t) * - (1))).
  assert (DN : forall t, derivable_pt_lim N t (exp (- t) * - (1))).
  { intros t. unfold N.
    apply (derivable_pt_lim_comp (- id)%F exp).
    - apply derivable_pt_lim_opp. apply derivable_pt_lim_id.
    - apply derivable_pt_lim_exp. }
  assert (DF : forall a5 t, derivable_pt_lim (F a5) t (F' a5 t)).
  { intros a5 t. unfold F, F'.
    apply (derivable_pt_lim_mult (P a5) N).
    - unfold P, P'. apply derivable_pt_lim_poly5.
    - apply DN. }
  assert (E0 : forall a5 t,
             F' a5 t = exp (- t) * ((t ^ 2 * t ^ 2)
                                    * (5 * a5 - 1 / 24 - a5 * t)))
    by (intros a5 t; unfold F', P, P', N; field).
  (* minus the fourth partial sum, and the partial sum with [t^5/24] *)
  assert (PA : forall t, 0 <= - F' 0 t).
  { intros t. rewrite E0.
    replace (- (exp (- t) * (t ^ 2 * t ^ 2 * (5 * 0 - 1 / 24 - 0 * t))))
      with (exp (- t) * ((t ^ 2 * t ^ 2) * (1 / 24))) by ring.
    apply Rmult_le_pos; [left; apply exp_pos|].
    apply Rmult_le_pos; [|lra]. apply Rmult_le_pos; apply pow2_ge_0. }
  assert (PB : forall t, t <= 4 -> 0 <= F' (1 / 24) t).
  { intros t Ht. rewrite E0.
    apply Rmult_le_pos; [left; apply exp_pos|].
    apply Rmult_le_pos; [|lra]. apply Rmult_le_pos; apply pow2_ge_0. }
  assert (DA : forall t,
             derivable_pt_lim (fun t => - F 0 t) t (- F' 0 t)).
  { intros t. apply (derivable_pt_lim_opp (F 0)). apply DF. }
  assert (F0 : forall a5, F a5 0 = 1).
  { intros a5. unfold F, P, N. rewrite Ropp_0, exp_0. ring. }
  assert (Hinv : exp (- x) * exp x = 1).
  { rewrite <- exp_plus. replace (- x + x) with 0 by lra. apply exp_0. }
  pose proof (exp_pos x) as Hex. pose proof (exp_pos (- x)) as Hemx.
  assert (FA : F 0 x = (1 + x + x ^ 2 / 2 + x ^ 3 / 6 + x ^ 4 / 24) * exp (- x))
    by (unfold F, P, N; field).
  assert (FB : F (1 / 24) x
               = (1 + x + x ^ 2 / 2 + x ^ 3 / 6 + x ^ 4 / 24 + x ^ 5 / 24)
                 * exp (- x))
    by (unfold F, P, N; field).
  set (T := 1 + x + x ^ 2 / 2 + x ^ 3 / 6 + x ^ 4 / 24) in *.
  split; intros Hs.
  - pose proof (nondecreasing_between (fun t => - F 0 t) (fun t => - F' 0 t)
                  0 x Hs ltac:(intros; apply DA) ltac:(intros; apply PA)) as A.
    pose proof (nondecreasing_between (F (1 / 24)) (F' (1 / 24)) 0 x Hs
                  ltac:(intros; apply DF) ltac:(intros; apply PB; lra)) as B.
    cbv beta in A. rewrite F0, FA in A. rewrite F0, FB in B.
    split.
    + assert (T * exp (- x) * exp x <= 1 * exp x)
        by (apply Rmult_le_compat_r; lra).
      rewrite Rmult_assoc, Hinv in H. lra.
    + assert (1 * exp x <= (T + x ^ 5 / 24) * exp (- x) * exp x)
        by (apply Rmult_le_compat_r; lra).
      rewrite Rmult_assoc, Hinv in H. lra.
  - pose proof (nondecreasing_between (fun t => - F 0 t) (fun t => - F' 0 t)
                  x 0 Hs ltac:(intros; apply DA) ltac:(intros; apply PA)) as A.
    pose proof (nondecreasing_between (F (1 / 24)) (F' (1 / 24)) x 0 Hs
                  ltac:(intros; apply DF) ltac:(intros; apply PB; lra)) as B.
    cbv beta in A. rewrite F0, FA in A. rewrite F0, FB in B.
    split.
    + assert ((T + x ^ 5 / 24) * exp (- x) * exp x <= 1 * exp x)
        by (apply Rmult_le_compat_r; lra).
      rewrite Rmult_assoc, Hinv in H. lra.
    + assert (1 * exp x <= T * exp (- x) * exp x)
        by (apply Rmult_le_compat_r; lra).
      rewrite Rmult_assoc, Hinv in H. lra.
Qed.

(** * The fast test never accepts what the squeeze test rejects *)

(** A function [w] with [w 0 = 1] and a non-negative second derivative on
    [[0, 2)]: the gap [a - a * w (1 / a)] does not decrease in [a > 1/2]. *)
Lemma gap_nondecreasing (w w1 w2 : R -> R) (a1 a : R) :
  (forall v, 0 <= v < 2 -> derivable_pt_lim w v (w1 v)) ->
  (forall v, 0 <= v < 2 -> derivable_pt_lim w1 v (w2 v)) ->
  (forall v, 0 <= v < 2 -> 0 <= w2 v) ->
  w 0 = 1 ->
  1 / 2 < a1 -> a1 <= a ->
  a1 - a1 * w (/ a1) <= a - a * w (/ a).
Proof.
  intros Dw Dw1 Pw2 W0 Ha1 Hle.
  (* sigma v = 1 - w v + v * w1 v is non-negative on [0, 2) *)
  set (sg := (fct_cte 1 - w + id * w1)%F).
  set (sg' := fun v : R => 0 - w1 v + (1 * w1 v + id v * w2 v)).
  assert (Dsg : forall v, 0 <= v < 2 -> derivable_pt_lim sg v (sg' v)).
  { intros v Hv. unfold sg, sg'.
    apply derivable_pt_lim_plus.
    - apply derivable_pt_lim_minus;
        [apply derivable_pt_lim_const|apply Dw; exact Hv].
    - apply derivable_pt_lim_mult;
        [apply derivable_pt_lim_id|apply Dw1; exact Hv]. }
  assert (Psg : forall v, 0 <= v < 2 -> 0 <= sg v).
  { intros v Hv.
    assert (S0 : sg 0 = 0).
    { unfold sg, minus_fct, plus_fct, mult_fct, fct_cte, id. rewrite W0. ring. }
    rewrite <- S0.
    apply (nondecreasing_between sg sg' 0 v); [lra| |].
    - intros c Hc. apply Dsg. lra.
    - intros c Hc. unfold sg', id.
      assert (0 <= c * w2 c) by (apply Rmult_le_pos; [lra|apply Pw2; lra]).
      lra. }
  (* the gap, as a function of a *)
  set (inv := fun x : R => Rpower x (- (1))).
  set (gap := (id - id * comp w inv)%F).
  set (gap' := fun x : R =>
                 1 - (1 * comp w inv x
                      + id x * (w1 (inv x) * (- (1) * Rpower x (- (1) - 1))))).
  assert (Hinv : forall x, 0 < x -> inv x = / x).
  { intros x Hx. unfold inv. apply Rpower_minus_one. exact Hx. }
  assert (Dgap : forall x, a1 <= x <= a -> derivable_pt_lim gap x (gap' x)).
  { intros x Hx. unfold gap, gap'.
    assert (Hix : 0 < / x) by (apply Rinv_0_lt_compat; lra).
    assert (Hi2 : / x < 2).
    { replace 2 with (/ (1 / 2)) by field.
      apply Rinv_lt_contravar; [|lra]. apply Rmult_lt_0_compat; lra. }
    apply derivable_pt_lim_minus; [apply derivable_pt_lim_id|].
    apply derivable_pt_lim_mult; [apply derivable_pt_lim_id|].
    apply derivable_pt_lim_comp.
    - unfold inv. apply derivable_pt_lim_power. lra.
    - apply Dw. rewrite Hinv by lra. lra. }
  assert (Pgap : forall x, a1 <= x <= a -> 0 <= gap' x).
  { intros x Hx. unfold gap', comp, id.
    assert (Hix : 0 < / x) by (apply Rinv_0_lt_compat; lra).
    assert (Hi2 : / x < 2).
    { replace 2 with (/ (1 / 2)) by field.
      apply Rinv_lt_contravar; [|lra]. apply Rmult_lt_0_compat; lra. }
    replace (Rpower x (- (1) - 1)) with (/ x * / x).
    2:{ replace (- (1) - 1) with (- (1) + - (1)) by lra.
        rewrite Rpower_plus, Rpower_minus_one by lra. reflexivity. }
    rewrite Hinv by lra.
    specialize (Psg (/ x) ltac:(lra)).
    unfold sg, minus_fct, plus_fct, mult_fct, fct_cte, id in Psg.
    replace (1 - (1 * w (/ x) + x * (w1 (/ x) * (- (1) * (/ x * / x)))))
      with (1 - w (/ x) + / x * w1 (/ x)) by (field; lra).
    exact Psg. }
  pose proof (nondecreasing_between gap gap' a1 a Hle Dgap Pgap) as Hm.
  unfold gap, minus_fct, mult_fct, comp, id in Hm.
  rewrite !Hinv in Hm by lra. exact Hm.
Qed.

(** ** The exponent 1 *)

Lemma gap_pole (a1 a : R) :
  1 / 2 < a1 -> a1 <= a ->
  a1 - H_inv_exact 1 (H_exact 1 (a1 + 1 / 2) - Rpower a1 (- (1)))
  <= a - H_inv_exact 1 (H_exact 1 (a + 1 / 2) - Rpower a (- (1))).
Proof.
  intros Ha1 Hle.
  set (w := ((fct_cte 1 + mult_real_fct (1 / 2) id) * comp exp (- id))%F).
  set (w1 := fun v : R =>
               (0 + 1 / 2 * 1) * comp exp (- id)%F v
               + (fct_cte 1 + mult_real_fct (1 / 2) id)%F v
                 * (exp (- v) * - (1))).
  set (w2 := fun v : R => exp (- v) * (v / 2)).
  assert (Dexp : forall v, derivable_pt_lim (comp exp (- id)%F) v
                             (exp (- v) * - (1))).
  { intros v. apply (derivable_pt_lim_comp (- id)%F exp).
    - apply derivable_pt_lim_opp. apply derivable_pt_lim_id.
    - apply derivable_pt_lim_exp. }
  assert (Dw : forall v, 0 <= v < 2 -> derivable_pt_lim w v (w1 v)).
  { intros v _. unfold w, w1. apply derivable_pt_lim_mult; [|apply Dexp].
    apply derivable_pt_lim_plus; [apply derivable_pt_lim_const|].
    apply derivable_pt_lim_scal. apply derivable_pt_lim_id. }
  assert (Dw1 : forall v, 0 <= v < 2 -> derivable_pt_lim w1 v (w2 v)).
  { intros v _.
    apply derivable_pt_lim_ext
      with (f := (mult_real_fct (- (1 / 2))
                    ((fct_cte 1 + id) * comp exp (- id)))%F).
    - intros z. unfold w1, mult_real_fct, mult_fct, plus_fct, fct_cte, comp,
        opp_fct, id. field.
    - replace (w2 v)
        with (- (1 / 2) * ((0 + 1) * comp exp (- id)%F v
                           + (fct_cte 1 + id)%F v * (exp (- v) * - (1)))).
      + apply derivable_pt_lim_scal. apply derivable_pt_lim_mult; [|apply Dexp].
        apply derivable_pt_lim_plus;
          [apply derivable_pt_lim_const|apply derivable_pt_lim_id].
      + unfold w2, comp, opp_fct, plus_fct, fct_cte, id. field. }
  assert (Pw2 : forall v, 0 <= v < 2 -> 0 <= w2 v).
  { intros v Hv. unfold w2. apply Rmult_le_pos; [left; apply exp_pos|lra]. }
  assert (W0 : w 0 = 1).
  { unfold w, mult_fct, plus_fct, mult_real_fct, fct_cte, comp, opp_fct, id.
    rewrite Ropp_0, exp_0. field. }
  pose proof (gap_nondecreasing w w1 w2 a1 a Dw Dw1 Pw2 W0 Ha1 Hle) as Hg.
  assert (E : forall x, 1 / 2 < x ->
                H_inv_exact 1 (H_exact 1 (x + 1 / 2) - Rpower x (- (1)))
                = x * w (/ x)).
  { intros x Hx. unfold H_inv_exact, H_exact.
    destruct (Req_dec_T 1 1) as [_|N]; [|contradiction].
    rewrite Rpower_minus_one by lra.
    unfold Rminus. rewrite exp_plus, exp_ln by lra.
    unfold w, mult_fct, plus_fct, mult_real_fct, fct_cte, comp, opp_fct, id.
    field. lra. }
  rewrite !E by lra. exact Hg.
Qed.

(** ** Exponents away from 1 *)

Lemma Rpower_one_base (r : R) : Rpower 1 r = 1.
Proof. unfold Rpower. rewrite ln_1, Rmult_0_r. apply exp_0. Qed.

Lemma Rpower_succ (x r : R) : 0 < x -> Rpower x (r + 1) = Rpower x r * x.
Proof. intros Hx. rewrite Rpower_plus, Rpower_1 by exact Hx. reflexivity. Qed.

Lemma bernoulli (x r : R) :
  0 <= x -> 1 <= r -> 1 + r * x <= Rpower (1 + x) r.
Proof.
  intros Hx Hr.
  set (f := (comp (fun y => Rpower y r) (fct_cte 1 + id)
             - (fct_cte 1 + mult_real_fct r id))%F).
  set (f' := fun t : R => r * Rpower (1 + t) (r - 1) * (0 + 1) - (0 + r * 1)).
  assert (D : forall c, 0 <= c <= x -> derivable_pt_lim f c (f' c)).
  { intros c Hc. unfold f, f'. apply derivable_pt_lim_minus.
    - apply derivable_pt_lim_comp.
      + apply derivable_pt_lim_plus;
          [apply derivable_pt_lim_const|apply derivable_pt_lim_id].
      + apply derivable_pt_lim_power. unfold plus_fct, fct_cte, id. lra.
    - apply derivable_pt_lim_plus; [apply derivable_pt_lim_const|].
      apply derivable_pt_lim_scal. apply derivable_pt_lim_id. }
  assert (P : forall c, 0 <= c <= x -> 0 <= f' c).
  { intros c Hc. unfold f'.
    assert (Hp : Rpower (1 + c) 0 <= Rpower (1 + c) (r - 1))
      by (apply Rle_Rpower; lra).
    rewrite Rpower_O in Hp by lra.
    nra. }
  pose proof (nondecreasing_between f f' 0 x Hx D P) as Hm.
  unfold f, minus_fct, plus_fct, mult_real_fct, comp, fct_cte, id in Hm.
  replace (1 + 0) with 1 in Hm by lra. rewrite Rpower_one_base in Hm. lra.
Qed.

Lemma cell_g_pos (s v : R) :
  0 <= s -> 1 - s <> 0 -> 0 <= v < 2 ->
  0 < Rpower (1 + v / 2) (1 - s) - (1 - s) * v.
Proof.
  intros Hs Ho Hv. set (o := 1 - s) in *.
  pose proof (Rpower_pos (1 + v / 2) o) as Hp.
  destruct (Rlt_dec o 0) as [Hneg|Hpos].
  - assert (0 <= - o * v) by (apply Rmult_le_pos; lra). lra.
  - assert (Ho' : 0 < o) by lra.
    destruct (Req_dec v 0) as [->|Hv0].
    + replace (1 + 0 / 2) with 1 by lra. rewrite Rpower_one_base. lra.
    + assert (Hvp : 0 < v) by lra.
      set (a := / v).
      assert (Ha : 1 / 2 < a).
      { unfold a. replace (1 / 2) with (/ 2) by lra.
        apply Rinv_lt_contravar; lra. }
      pose proof (hat_integral_midpoint a s Hs Ho Ha) as Hm. fold o in Hm.
      assert (E1 : Rpower (a + 1 / 2) o = Rpower a o * Rpower (1 + v / 2) o).
      { rewrite Rpower_mult_distr by lra. f_equal. unfold a. field. lra. }
      assert (E2 : Rpower a (- s) = Rpower a o * v).
      { replace (- s) with (o + - (1)) by (unfold o; lra).
        rewrite Rpower_plus, Rpower_minus_one by lra.
        unfold a. rewrite Rinv_inv. reflexivity. }
      pose proof (Rpower_pos (a - 1 / 2) o) as H1.
      pose proof (Rpower_pos a o) as H2.
      rewrite E1, E2 in Hm.
      assert (H3 : Rpower (a - 1 / 2) o / o * o + Rpower a o * v * o
                   <= Rpower a o * Rpower (1 + v / 2) o / o * o).
      { rewrite <- Rmult_plus_distr_r. apply Rmult_le_compat_r; lra. }
      replace (Rpower (a - 1 / 2) o / o * o) with (Rpower (a - 1 / 2) o) in H3
        by (field; lra).
      replace (Rpower a o * Rpower (1 + v / 2) o / o * o)
        with (Rpower a o * Rpower (1 + v / 2) o) in H3 by (field; lra).
      assert (0 < Rpower a o * (Rpower (1 + v / 2) o - o * v)) by nra.
      apply Rmult_lt_reg_l with (r := Rpower a o); [exact H2|]. lra.
Qed.

Lemma gap_generic (s a1 a : R) :
  0 <= s -> 1 - s <> 0 ->
  1 / 2 < a1 -> a1 <= a ->
  a1 - H_inv_exact s (H_exact s (a1 + 1 / 2) - Rpower a1 (- s))
  <= a - H_inv_exact s (H_exact s (a + 1 / 2) - Rpower a (- s)).
Proof.
  intros Hs Ho Ha1 Hle.
  set (o := 1 - s) in *. set (p := 1 / o).
  set (b := (fct_cte 1 + mult_real_fct (1 / 2) id)%F).
  set (g := (comp (fun x => Rpower x o) b - mult_real_fct o id)%F).
  set (g1 := fun v : R => o * Rpower (b v) (o - 1) * (0 + 1 / 2 * 1) - o * 1).
  set (g1c := (mult_real_fct (o / 2) (comp (fun x => Rpower x (o - 1)) b)
               - fct_cte o)%F).
  set (g2 := fun v : R =>
               o / 2 * ((o - 1) * Rpower (b v) (o - 1 - 1) * (0 + 1 / 2 * 1))
               - 0).
  set (w := comp (fun x => Rpower x p) g).
  set (w1 := fun v : R => p * Rpower (g v) (p - 1) * g1 v).
  set (w1c := (mult_real_fct p (comp (fun x => Rpower x (p - 1)) g) * g1c)%F).
  set (w2 := fun v : R =>
               p * ((p - 1) * Rpower (g v) (p - 1 - 1) * g1 v) * g1c v
               + mult_real_fct p (comp (fun x => Rpower x (p - 1)) g) v
                 * g2 v).
  assert (Hb : forall v, 0 <= v -> 1 <= b v).
  { intros v Hv. unfold b, plus_fct, mult_real_fct, fct_cte, id. lra. }
  assert (Eb : forall v, b v = 1 + v / 2).
  { intros v. unfold b, plus_fct, mult_real_fct, fct_cte, id. lra. }
  assert (Db : forall v, derivable_pt_lim b v (0 + 1 / 2 * 1)).
  { intros v. unfold b. apply derivable_pt_lim_plus;
      [apply derivable_pt_lim_const|].
    apply derivable_pt_lim_scal. apply derivable_pt_lim_id. }
  assert (Eg : forall v, g v = Rpower (1 + v / 2) o - o * v).
  { intros v. unfold g, minus_fct, comp, mult_real_fct, id. rewrite Eb.
    reflexivity. }
  assert (Pg : forall v, 0 <= v < 2 -> 0 < g v).
  { intros v Hv. rewrite Eg. apply cell_g_pos; assumption. }
  assert (Dg : forall v, 0 <= v < 2 -> derivable_pt_lim g v (g1 v)).
  { intros v Hv. unfold g, g1. apply derivable_pt_lim_minus.
    - apply derivable_pt_lim_comp; [apply Db|].
      apply derivable_pt_lim_power. specialize (Hb v ltac:(lra)). lra.
    - apply derivable_pt_lim_scal. apply derivable_pt_lim_id. }
  assert (Eg1 : forall v, g1c v = g1 v).
  { intros v. unfold g1c, g1, minus_fct, mult_real_fct, comp, fct_cte. field. }
  assert (Dg1 : forall v, 0 <= v < 2 -> derivable_pt_lim g1c v (g2 v)).
  { intros v Hv. unfold g1c, g2. apply derivable_pt_lim_minus;
      [|apply derivable_pt_lim_const].
    apply derivable_pt_lim_scal.
    apply derivable_pt_lim_comp; [apply Db|].
    apply derivable_pt_lim_power. specialize (Hb v ltac:(lra)). lra. }
  assert (Dw : forall v, 0 <= v < 2 -> derivable_pt_lim w v (w1 v)).
  { intros v Hv. unfold w, w1.
    apply derivable_pt_lim_comp; [apply Dg; exact Hv|].
    apply derivable_pt_lim_power. apply Pg. exact Hv. }
  assert (Dw1 : forall v, 0 <= v < 2 -> derivable_pt_lim w1 v (w2 v)).
  { intros v Hv.
    apply derivable_pt_lim_ext with (f := w1c).
    - intros z. unfold w1c, w1, mult_fct, mult_real_fct, comp.
      rewrite Eg1. reflexivity.
    - unfold w1c, w2. apply derivable_pt_lim_mult; [|apply Dg1; exact Hv].
      apply derivable_pt_lim_scal.
      apply derivable_pt_lim_comp; [apply Dg; exact Hv|].
      apply derivable_pt_lim_power. apply Pg. exact Hv. }
  assert (Pw2 : forall v, 0 <= v < 2 -> 0 <= w2 v).
  { intros v Hv. unfold w2, mult_real_fct, comp. rewrite Eg1. unfold g1, g2.
    specialize (Pg v Hv). specialize (Hb v ltac:(lra)).
    set (bv := b v) in *. set (gv := g v) in *.
    set (B1 := Rpower bv (o - 1)).
    set (G2 := Rpower gv (p - 1 - 1)).
    assert (HB1 : 0 < B1) by apply Rpower_pos.
    assert (HG2 : 0 < G2) by apply Rpower_pos.
    assert (EG : Rpower gv (p - 1) = G2 * gv).
    { unfold G2. replace (p - 1) with (p - 1 - 1 + 1) at 1 by lra.
      apply Rpower_succ. exact Pg. }
    assert (EB2 : Rpower bv (o - 1 - 1) = B1 * / bv).
    { unfold B1. replace (o - 1 - 1) with (o - 1 + - (1)) by lra.
      rewrite Rpower_plus, Rpower_minus_one by lra. reflexivity. }
    assert (Egv : gv = B1 * bv - o * v).
    { unfold gv. rewrite Eg, <- Eb. fold bv. unfold B1.
      replace o with (o - 1 + 1) at 1 by lra.
      rewrite Rpower_succ by lra. reflexivity. }
    assert (Ebv : bv = 1 + v / 2) by (unfold bv; apply Eb).
    rewrite EG, EB2.
    replace (p * ((p - 1) * G2 * (o * B1 * (0 + 1 / 2 * 1) - o * 1))
             * (o * B1 * (0 + 1 / 2 * 1) - o * 1)
             + p * (G2 * gv)
               * (o / 2 * ((o - 1) * (B1 * / bv) * (0 + 1 / 2 * 1)) - 0))
      with (s * G2 * (1 - B1 * / bv * (1 + (1 + s) * (v / 4)))).
    2:{ rewrite Egv. unfold p. rewrite Ebv. unfold o. field.
        split; [lra|exact Ho]. }
    apply Rmult_le_pos; [apply Rmult_le_pos; lra|].
    (* Bernoulli *)
    pose proof (bernoulli (v / 2) (1 + s) ltac:(lra) ltac:(lra)) as Hber.
    rewrite <- Ebv in Hber.
    assert (EB : B1 * / bv = / Rpower bv (1 + s)).
    { rewrite <- EB2. rewrite <- Rpower_Ropp. f_equal. unfold o. lra. }
    rewrite EB.
    pose proof (Rpower_pos bv (1 + s)) as HP.
    assert (/ Rpower bv (1 + s) * (1 + (1 + s) * (v / 4))
            <= / Rpower bv (1 + s) * Rpower bv (1 + s)).
    { apply Rmult_le_compat_l; [left; apply Rinv_0_lt_compat; exact HP|].
      nra. }
    rewrite Rinv_l in H by lra. lra. }
  assert (W0 : w 0 = 1).
  { unfold w, comp. rewrite Eg. replace (1 + 0 / 2) with 1 by lra.
    rewrite Rpower_one_base. replace (1 - o * 0) with 1 by lra.
    apply Rpower_one_base. }
  pose proof (gap_nondecreasing w w1 w2 a1 a Dw Dw1 Pw2 W0 Ha1 Hle) as Hg.
  assert (E : forall x, 1 / 2 < x ->
                H_inv_exact s (H_exact s (x + 1 / 2) - Rpower x (- s))
                = x * w (/ x)).
  { intros x Hx. unfold H_inv_exact, H_exact.
    destruct (Req_dec_T s 1) as [E1|_]; [unfold o in Ho; lra|].
    fold o. fold p.
    assert (Hix : 0 < / x) by (apply Rinv_0_lt_compat; lra).
    assert (Hi2 : / x < 2).
    { replace 2 with (/ (1 / 2)) by field.
      apply Rinv_lt_contravar; [|lra]. apply Rmult_lt_0_compat; lra. }
    assert (E1 : Rpower (x + 1 / 2) o = Rpower x o * Rpower (1 + / x / 2) o).
    { rewrite Rpower_mult_distr by lra. f_equal. field. lra. }
    assert (E2 : Rpower x (- s) = Rpower x o * / x).
    { replace (- s) with (o + - (1)) by (unfold o; lra).
      rewrite Rpower_plus, Rpower_minus_one by lra. reflexivity. }
    replace ((Rpower (x + 1 / 2) o / o - Rpower x (- s)) * o)
      with (Rpower x o * g (/ x)).
    2:{ rewrite Eg, E1, E2. field. split; [lra|exact Ho]. }
    rewrite <- Rpower_mult_distr; [|apply Rpower_pos|apply Pg; lra].
    rewrite Rpower_mult. unfold p.
    replace (o * (1 / o)) with 1 by (field; exact Ho).
    rewrite Rpower_1 by lra. reflexivity. }
  rewrite !E by lra. exact Hg.
Qed.

(** ** The gap at the squeeze threshold, for every non-negative exponent *)

Lemma gap_exact (s a1 a : R) :
  0 <= s -> 1 / 2 < a1 -> a1 <= a ->
  a1 - H_inv_exact s (H_exact s (a1 + 1 / 2) - Rpower a1 (- s))
  <= a - H_inv_exact s (H_exact s (a + 1 / 2) - Rpower a (- s)).
Proof.
  intros Hs Ha1 Hle. destruct (Req_dec s 1) as [->|Hne].
  - apply gap_pole; assumption.
  - apply gap_generic; try assumption. lra.
Qed.

Lemma threshold_range (s a : R) :
  0 <= s -> 1 / 2 < a ->
  H_exact_range s (H_exact s (a + 1 / 2) - Rpower a (- s)).
Proof.
  intros Hs Ha.
  apply (H_exact_range_between s (H_exact s (a - 1 / 2))
           (H_exact s (a + 1 / 2))).
  - apply H_exact_in_range. lra.
  - apply H_exact_in_range. lra.
  - pose proof (H_exact_midpoint s a Hs Ha).
    pose proof (Rpower_pos a (- s)). lra.
Qed.

(** * The rejection-inversion sampler in the exact regimes

    From here on the exponent is 1, or has [|1 - s| >= 1]: the two
    cases in which [H] and [H_inv] evaluate closed forms and not a
    truncated series. *)

Section ExactRegime.
Import zipf_distribution.

Lemma h_member (n : Z) (s q x : R) :
  0 < x + q -> h (@init_members R R_ops n s q) x = Rpower (x + q) (- s).
Proof.
  intros Hx. unfold h, h_at. cbn [_s _q init_members]. rt_simpl.
  apply R_pow_pos. exact Hx.
Qed.

Lemma H_member (n : Z) (s q x : R) :
  exact_regime s -> 0 < x + q ->
  H (@init_members R R_ops n s q) x = H_exact s (x + q).
Proof.
  intros Hr Hx. unfold H, H_at, H_exact.
  rewrite init_members_spole, init_members_oms.
  assert (Hq : _q (@init_members R R_ops n s q) = q) by reflexivity.
  rewrite Hq. destruct (Req_dec_T s 1) as [->|Hs].
  - replace (R_lt _ _) with true.
    2:{ symmetry. apply R_lt_spec. replace (1 - 1) with 0 by lra.
        rewrite Rabs_R0. lra. }
    cbn [negb]. rt_simpl. replace (1 - 1) with 0 by lra.
    rewrite Rmult_0_l, expxm1bx_zero. lra.
  - destruct Hr as [E|Hfar]; [contradiction|].
    replace (R_lt _ _) with false by (symmetry; apply R_lt_false; exact Hfar).
    cbn [negb]. rt_simpl. rewrite R_pow_pos by exact Hx. reflexivity.
Qed.

Lemma H_inv_member (n : Z) (s q y : R) :
  exact_regime s -> H_exact_range s y ->
  H_inv (@init_members R R_ops n s q) y = H_inv_exact s y - q.
Proof.
  intros Hr Hy. unfold H_inv, H_inv_at, H_inv_exact.
  rewrite init_members_spole, init_members_oms, init_members_rvs.
  assert (Hq : _q (@init_members R R_ops n s q) = q) by reflexivity.
  rewrite Hq. destruct (Req_dec_T s 1) as [->|Hs].
  - replace (R_lt _ _) with true.
    2:{ symmetry. apply R_lt_spec. replace (1 - 1) with 0 by lra.
        rewrite Rabs_R0. lra. }
    cbn [negb]. rt_simpl. replace (1 - 1) with 0 by lra.
    rewrite Rmult_0_l, log1pxbx_zero, Rmult_1_r. reflexivity.
  - destruct Hr as [E|Hfar]; [contradiction|].
    destruct Hy as [E|Hy]; [contradiction|].
    replace (R_lt _ _) with false by (symmetry; apply R_lt_false; exact Hfar).
    cbn [negb]. rt_simpl. rewrite R_pow_pos by exact Hy. reflexivity.
Qed.

Lemma lit_half : @lit R R_ops 0.5 = 1 / 2.
Proof. rt_simpl. rewrite Q2R_unfold. lra. Qed.

Lemma init_members_range (n : Z) (s q : R) :
  let this := @init_members R R_ops n s q in
  dist_a (dist this) = H this (3 / 2) - h this 1
  /\ dist_b (dist this) = H this (IZR n + 1 / 2).
Proof.
  cbv zeta. unfold H, h. cbn [dist dist_a dist_b init_members _q _s oms spole].
  rt_simpl. rewrite !Q2R_unfold.
  replace (15 / 10) with (3 / 2) by lra.
  replace (10 / 10) with 1 by lra.
  replace (5 / 10) with (1 / 2) by lra.
  split; reflexivity.
Qed.

Lemma init_members_cut (n : Z) (s q : R) :
  let this := @init_members R R_ops n s q in
  cut this = 1 - H_inv this (dist_a (dist this)).
Proof.
  cbv zeta. unfold H_inv.
  cbn [cut dist dist_a init_members _q oms spole rvs].
  rt_simpl. rewrite !Q2R_unfold.
  replace (10 / 10) with 1 by lra. reflexivity.
Qed.

Lemma round_trip_members (n : Z) (s q x y : R) :
  exact_regime s -> 0 < x + q -> H_exact_range s y ->
  let this := @init_members R R_ops n s q in
  H_inv this (H this x) = x /\ H this (H_inv this y) = y.
Proof.
  intros Hr Hx Hy. cbv zeta. split.
  - rewrite H_member by assumption.
    rewrite H_inv_member by (try assumption; apply H_exact_in_range; exact Hx).
    rewrite H_inv_exact_H by exact Hx. lra.
  - rewrite H_inv_member by assumption.
    pose proof (H_inv_exact_pos s y) as Hp.
    rewrite H_member by (try assumption; lra).
    replace (H_inv_exact s y - q + q) with (H_inv_exact s y) by lra.
    apply H_exact_H_inv. exact Hy.
Qed.

Lemma increasing_members (n : Z) (s q x1 x2 y1 y2 : R) :
  exact_regime s ->
  0 < x1 + q -> x1 < x2 ->
  H_exact_range s y1 -> H_exact_range s y2 -> y1 < y2 ->
  let this := @init_members R R_ops n s q in
  H this x1 < H this x2 /\ H_inv this y1 < H_inv this y2.
Proof.
  intros Hr Hx Hlt Hy1 Hy2 Hylt. cbv zeta. split.
  - rewrite !H_member by (try assumption; lra).
    apply H_exact_lt; lra.
  - rewrite !H_inv_member by assumption.
    pose proof (H_inv_exact_lt s y1 y2 Hy1 Hy2 Hylt). lra.
Qed.

Lemma H_exact_derivative (s a : R) :
  0 < a -> derivable_pt_lim (H_exact s) a (Rpower a (- s)).
Proof.
  intros Ha. unfold H_exact. destruct (Req_dec_T s 1) as [->|Hs].
  - rewrite Rpower_minus_one by exact Ha.
    apply derivable_pt_lim_ln. exact Ha.
  - replace (Rpower a (- s))
      with (/ (1 - s) * ((1 - s) * Rpower a (1 - s - 1))).
    2:{ replace (1 - s - 1) with (- s) by lra. field. lra. }
    apply derivable_pt_lim_ext
      with (f := mult_real_fct (/ (1 - s)) (fun x => Rpower x (1 - s))).
    + intros z. unfold mult_real_fct. field. lra.
    + apply derivable_pt_lim_scal. apply derivable_pt_lim_power. exact Ha.
Qed.

Lemma derivative_members (n : Z) (s q x : R) :
  exact_regime s -> 0 < x + q ->
  let this := @init_members R R_ops n s q in
  derivable_pt_lim (H this) x (h this x).
Proof.
  intros Hr Hx. cbv zeta. rewrite h_member by exact Hx.
  apply derivable_pt_lim_locally_ext
    with (f := fun z => H_exact s (z + q)) (a := x - (x + q) / 2)
         (b := x + 1).
  - lra.
  - intros z Hz. symmetry. apply H_member; [exact Hr|lra].
  - replace (Rpower (x + q) (- s)) with (Rpower (x + q) (- s) * (1 + 0))
      by lra.
    apply (derivable_pt_lim_comp (id + fct_cte q)%F (H_exact s)).
    + apply derivable_pt_lim_plus;
        [apply derivable_pt_lim_id|apply derivable_pt_lim_const].
    + apply H_exact_derivative. exact Hx.
Qed.

Lemma R_round_cell (x : R) (k : Z) :
  (1 <= k)%Z ->
  (R_to_int (R_round x) = k <-> IZR k - 1 / 2 <= x < IZR k + 1 / 2).
Proof.
  intros Hk. assert (Hk1 : 1 <= IZR k) by (apply IZR_le; exact Hk).
  unfold R_round. rewrite R_to_int_IZR. destruct (Rle_dec 0 x) as [Hx|Hx].
  - pose proof (Zfloor_bound (x + / 2)) as Hb. split.
    + intros <-. lra.
    + intros Hc. apply Zfloor_eq. lra.
  - split.
    + intros E. exfalso. unfold Zceil in E.
      assert (Hf : (0 <= Zfloor (- (x - / 2)))%Z) by (apply Zfloor_lub; lra).
      lia.
    + intros Hc. lra.
Qed.

Lemma candidate_cell_members (n : Z) (s q u : R) (k : Z) :
  exact_regime s -> -1 / 2 < q -> (1 <= k)%Z -> H_exact_range s u ->
  let this := @init_members R R_ops n s q in
  to_int (std_round (H_inv this u)) = k
  <-> H this (of_int k - lit 0.5) <= u < H this (of_int k + lit 0.5).
Proof.
  intros Hr Hq Hk Hu. cbv zeta.
  assert (Hk1 : 1 <= IZR k) by (apply IZR_le; exact Hk).
  rewrite lit_half. rt_simpl.
  rewrite R_round_cell by exact Hk.
  rewrite H_inv_member by assumption.
  rewrite !H_member by (try assumption; lra).
  pose proof (H_exact_in_range s (IZR k - 1 / 2 + q) ltac:(lra)) as Hlo.
  pose proof (H_exact_in_range s (IZR k + 1 / 2 + q) ltac:(lra)) as Hhi.
  split.
  - intros [H1 H2].
    rewrite <- (H_exact_H_inv s u Hu).
    pose proof (H_inv_exact_pos s u) as Hp. split.
    + apply H_exact_le; lra.
    + apply H_exact_lt; lra.
  - intros [H1 H2].
    pose proof (H_inv_exact_le _ _ _ Hlo Hu H1) as L1.
    pose proof (H_inv_exact_lt _ _ _ Hu Hhi H2) as L2.
    rewrite H_inv_exact_H in L1 by lra. rewrite H_inv_exact_H in L2 by lra.
    lra.
Qed.

Lemma squeeze_threshold_members (n : Z) (s q : R) (k : Z) :
  exact_regime s -> -1 / 2 < q -> 0 <= s -> (1 <= k)%Z ->
  let this := @init_members R R_ops n s q in
  H this (of_int k - lit 0.5)
  <= H this (of_int k + lit 0.5) - h this (of_int k)
  < H this (of_int k + lit 0.5).
Proof.
  intros Hr Hq Hs Hk. cbv zeta.
  assert (Hk1 : 1 <= IZR k) by (apply IZR_le; exact Hk).
  rewrite lit_half. rt_simpl.
  rewrite !H_member by (try assumption; lra).
  rewrite h_member by lra.
  pose proof (H_exact_midpoint s (IZR k + q) Hs ltac:(lra)) as Hm.
  replace (IZR k + q - 1 / 2) with (IZR k - 1 / 2 + q) in Hm by lra.
  replace (IZR k + q + 1 / 2) with (IZR k + 1 / 2 + q) in Hm by lra.
  pose proof (Rpower_pos (IZR k + q) (- s)). lra.
Qed.

Lemma sampling_range_members (n : Z) (s q : R) :
  exact_regime s -> -1 / 2 < q ->
  let this := @init_members R R_ops n s q in
  ((1 <= n)%Z -> dist_a (dist this) < dist_b (dist this))
  /\ (n = 0%Z -> 0 <= s -> dist_b (dist this) <= dist_a (dist this)).
Proof.
  intros Hr Hq. cbv zeta.
  destruct (init_members_range n s q) as [Ha Hb]. rewrite Ha, Hb.
  rewrite !H_member by (try assumption; lra).
  rewrite h_member by lra.
  pose proof (Rpower_pos (1 + q) (- s)) as Hh.
  split.
  - intros Hn. assert (Hn1 : 1 <= IZR n) by (apply IZR_le; exact Hn).
    rewrite H_member by (try assumption; lra).
    assert (H_exact s (3 / 2 + q) <= H_exact s (IZR n + 1 / 2 + q))
      by (apply H_exact_le; lra).
    lra.
  - intros -> Hs. rewrite H_member by (try assumption; lra).
    pose proof (H_exact_midpoint s (1 + q) Hs ltac:(lra)) as Hm.
    replace (1 + q - 1 / 2) with (0 + 1 / 2 + q) in Hm by lra.
    replace (1 + q + 1 / 2) with (3 / 2 + q) in Hm by lra.
    lra.
Qed.

(** The lowest variate is the squeeze threshold of the value 1. *)
Lemma lowest_variate (n : Z) (s q : R) :
  let this := @init_members R R_ops n s q in
  dist_a (dist this)
  = (H this (of_int 1 + lit 0.5) - h this (of_int 1))%rt.
Proof.
  cbv zeta. destruct (init_members_range n s q) as [Ha _]. rewrite Ha.
  rewrite lit_half. rt_simpl. replace (1 + 1 / 2) with (3 / 2) by lra.
  reflexivity.
Qed.


Lemma candidate_one_members
    (n : Z) (s q : R) (fuel : nat) (g : @canonical_engine R) :
  let this := @init_members R R_ops n s q in
  dist_a (dist this) <= dist_b (dist this) ->
  0 <= g O ->
  to_int (std_round
            (H_inv this
               (dist_a (dist this)
                + (dist_b (dist this) - dist_a (dist this)) * g O))) = 1%Z ->
  @operator_call R R_ops R_random (S fuel) this g
  = Some (1%Z, this, advance g).
Proof.
  cbv zeta. intros Hab Hg Hk.
  set (this := init_members n s q) in *.
  cbn [operator_call uniform_real_draw R_random canonical_random].
  pose proof (lowest_variate n s q) as Hlow. cbv zeta in Hlow.
  fold this in Hlow. rt_simpl.
  set (u := dist_a (dist this)
            + (dist_b (dist this) - dist_a (dist this)) * g O)
    in *.
  rewrite Hk.
  destruct (R_le (1 - H_inv this u) (cut this)); [reflexivity|].
  replace (R_le _ u) with true; [reflexivity|].
  symmetry. apply R_le_spec. rewrite <- Hlow. unfold u. nra.
Qed.

Lemma lowest_variate_exact (n : Z) (s q : R) :
  exact_regime s -> -1 / 2 < q ->
  dist_a (dist (@init_members R R_ops n s q))
  = H_exact s (1 + q + 1 / 2) - Rpower (1 + q) (- s).
Proof.
  intros Hr Hq. destruct (init_members_range n s q) as [Ha _]. rewrite Ha.
  rewrite H_member by (try assumption; lra). rewrite h_member by lra.
  replace (3 / 2 + q) with (1 + q + 1 / 2) by lra. reflexivity.
Qed.

Lemma lowest_variate_range (n : Z) (s q : R) :
  exact_regime s -> 0 <= s -> -1 / 2 < q ->
  H_exact_range s (dist_a (dist (@init_members R R_ops n s q))).
Proof.
  intros Hr Hs Hq. rewrite lowest_variate_exact by assumption.
  apply threshold_range; lra.
Qed.


Lemma fast_accept_members (n : Z) (s q u : R) (k : Z) :
  exact_regime s -> 0 <= s -> -1 / 2 < q -> (1 <= k)%Z ->
  H_exact_range s u ->
  let this := @init_members R R_ops n s q in
  (of_int k - H_inv this u <=? cut this)%rt = true ->
  (u >=? H this (of_int k + lit 0.5) - h this (of_int k))%rt = true.
Proof.
  intros Hr Hs Hq Hk Hu. cbv zeta. intros Hfast.
  assert (Hk1 : 1 <= IZR k) by (apply IZR_le; exact Hk).
  pose proof (init_members_cut n s q) as Hcut. cbv zeta in Hcut.
  rewrite Hcut in Hfast. clear Hcut.
  rewrite (H_inv_member n s q _ Hr (lowest_variate_range n s q Hr Hs Hq))
    in Hfast.
  rewrite lowest_variate_exact in Hfast by assumption.
  rewrite H_inv_member in Hfast by assumption.
  rewrite lit_half. rt_simpl. apply R_le_spec in Hfast. apply R_le_spec.
  rewrite H_member by (try assumption; lra). rewrite h_member by lra.
  pose proof (gap_exact s (1 + q) (IZR k + q) Hs ltac:(lra) ltac:(lra))
    as Hgap.
  replace (IZR k + 1 / 2 + q) with (IZR k + q + 1 / 2) by lra.
  set (thr := H_exact s (IZR k + q + 1 / 2) - Rpower (IZR k + q) (- s)) in *.
  assert (Hthr : H_exact_range s thr)
    by (apply threshold_range; [exact Hs|lra]).
  assert (Hinv : H_inv_exact s thr <= H_inv_exact s u) by lra.
  destruct (Rle_dec thr u) as [Hle|Hgt]; [exact Hle|exfalso].
  apply Rnot_le_lt in Hgt.
  pose proof (H_inv_exact_lt s u thr Hu Hthr Hgt). lra.
Qed.



Lemma near_pole_members (n : Z) (s q x y : R) :
  Rabs (1 - s) < 1 ->
  H (@init_members R R_ops n s q) x
  = ln (x + q) * @expxm1bx R R_ops ((1 - s) * ln (x + q))
  /\ H_inv (@init_members R R_ops n s q) y
     = exp (y * @log1pxbx R R_ops ((1 - s) * y)) - q.
Proof.
  intros Hnear. apply R_lt_spec in Hnear.
  assert (Hq : _q (@init_members R R_ops n s q) = q) by reflexivity.
  unfold H, H_inv, H_at, H_inv_at.
  rewrite init_members_spole, init_members_oms, Hq, Hnear.
  cbn [negb]. split; reflexivity.
Qed.

Lemma lowest_variate_fast (n : Z) (s q : R) :
  let this := @init_members R R_ops n s q in
  (of_int 1 - H_inv this (dist_a (dist this)) <=? cut this)%rt = true.
Proof.
  cbv zeta. pose proof (init_members_cut n s q) as Hcut. cbv zeta in Hcut.
  rewrite Hcut. rt_simpl. apply R_le_spec. lra.
Qed.

Lemma lowest_variate_candidate (n : Z) (s q : R) (g : @canonical_engine R) :
  exact_regime s -> 0 <= s -> -1 / 2 < q -> g O = 0 ->
  let this := @init_members R R_ops n s q in
  to_int (std_round
            (H_inv this
               (dist_a (dist this)
                + (dist_b (dist this) - dist_a (dist this)) * g O))) = 1%Z.
Proof.
  intros Hr Hs Hq Hg. cbv zeta. rewrite Hg.
  replace (dist_a (dist (init_members n s q))
           + (dist_b (dist (init_members n s q))
              - dist_a (dist (init_members n s q))) * 0)
    with (dist_a (dist (@init_members R R_ops n s q))) by ring.
  apply (candidate_cell_members n s q _ 1 Hr Hq ltac:(lia)
           (lowest_variate_range n s q Hr Hs Hq)).
  pose proof (squeeze_threshold_members n s q 1 Hr Hq Hs ltac:(lia)) as Hthr.
  cbv zeta in Hthr. rewrite <- lowest_variate in Hthr. exact Hthr.
Qed.

(** ** The properties, for a constructed sampler *)



(** X4: the fast test is a shortcut of the squeeze test.  In exact real
    arithmetic, for an exponent [s >= 0] that is 1 or has [|1 - s| >= 1],
    for [q > -1/2], a value [k >= 1] and a variate [u] among the values of
    [H] ([s = 1] or [u * (1 - s) > 0]): if [k - H_inv u <= cut] then
    [u >= H (k + 0.5) - h k]. *)
Theorem fast_accept_implies_squeeze
    (n : Z) (s q : R) (this : R_zipf) (u : R) (k : Z) :
  exact_regime s -> 0 <= s -> -1 / 2 < q -> (1 <= k)%Z ->
  H_exact_range s u ->
  @construct R R_ops n s q = Ok this ->
  (of_int k - H_inv this u <=? cut this)%rt = true ->
  (u >=? H this (of_int k + lit 0.5) - h this (of_int k))%rt = true.
Proof.
  intros Hr Hs Hq Hk Hu Hc. apply construct_Ok_inv in Hc as [-> _].
  apply (fast_accept_members n s q u k); assumption.
Qed.


(** X6: the squeeze threshold of a value lies in its cell.  In exact real
    arithmetic, for an exponent [s >= 0] that is 1 or has [|1 - s| >= 1],
    for [q > -1/2] and [k >= 1]:
    [H (k - 0.5) <= H (k + 0.5) - h k < H (k + 0.5)]. *)
Theorem squeeze_threshold_in_cell
    (n : Z) (s q : R) (this : R_zipf) (k : Z) :
  exact_regime s -> -1 / 2 < q -> 0 <= s -> (1 <= k)%Z ->
  @construct R R_ops n s q = Ok this ->
  (H this (of_int k - lit 0.5)
   <= H this (of_int k + lit 0.5) - h this (of_int k)
   < H this (of_int k + lit 0.5))%rt.
Proof.
  intros Hr Hq Hs Hk Hc. apply construct_Ok_inv in Hc as [-> _].
  apply (squeeze_threshold_members n s q k); assumption.
Qed.

(** X7: a candidate 1 is never rejected, whatever the exponent: when the
    first candidate of a call is 1, the call returns 1 after one turn. *)
Theorem candidate_one_accepted
    (n : Z) (s q : R) (this : R_zipf) (fuel : nat)
    (g : @canonical_engine R) :
  @construct R R_ops n s q = Ok this ->
  dist_a (dist this) <= dist_b (dist this) ->
  0 <= g O ->
  to_int (std_round
            (H_inv this
               (dist_a (dist this)
                + (dist_b (dist this) - dist_a (dist this)) * g O))) = 1%Z ->
  @operator_call R R_ops R_random (S fuel) this g
  = Some (1%Z, this, advance g).
Proof.
  intros Hc Hab Hg Hk. apply construct_Ok_inv in Hc as [-> _].
  apply (candidate_one_members n s q fuel g); assumption.
Qed.

(** X8: in exact real arithmetic, for an exponent that is 1 or has
    [|1 - s| >= 1], [H_inv] is the inverse of [H]: [H_inv (H x) = x]
    wherever [x + q > 0], and [H (H_inv y) = y] for every [y] among the
    values of [H] ([s = 1] or [y * (1 - s) > 0]). *)
Theorem H_inv_round_trip (n : Z) (s q : R) (this : R_zipf) (x y : R) :
  exact_regime s -> 0 < x + q -> H_exact_range s y ->
  @construct R R_ops n s q = Ok this ->
  H_inv this (H this x) = x /\ H this (H_inv this y) = y.
Proof.
  intros Hr Hx Hy Hc. apply construct_Ok_inv in Hc as [-> _].
  apply (round_trip_members n s q x y); assumption.
Qed.

(** X9: in exact real arithmetic, for an exponent that is 1 or has
    [|1 - s| >= 1], [H] is strictly increasing where [x + q > 0], and
    [H_inv] is strictly increasing on the values of [H] ([s = 1] or
    [y * (1 - s) > 0]). *)
Theorem H_strictly_increasing
    (n : Z) (s q : R) (this : R_zipf) (x1 x2 y1 y2 : R) :
  exact_regime s ->
  0 < x1 + q -> x1 < x2 ->
  H_exact_range s y1 -> H_exact_range s y2 -> y1 < y2 ->
  @construct R R_ops n s q = Ok this ->
  H this x1 < H this x2 /\ H_inv this y1 < H_inv this y2.
Proof.
  intros Hr Hx Hlt Hy1 Hy2 Hylt Hc. apply construct_Ok_inv in Hc as [-> _].
  apply (increasing_members n s q x1 x2 y1 y2); assumption.
Qed.

(** X10: in exact real arithmetic, for an exponent that is 1 or has
    [|1 - s| >= 1], [H] is an antiderivative of [h]: at every [x] with
    [x + q > 0] the derivative of [H] is [h x]. *)
Theorem H_derivative_is_h (n : Z) (s q : R) (this : R_zipf) (x : R) :
  exact_regime s -> 0 < x + q ->
  @construct R R_ops n s q = Ok this ->
  derivable_pt_lim (H this) x (h this x).
Proof.
  intros Hr Hx Hc. apply construct_Ok_inv in Hc as [-> _].
  apply (derivative_members n s q x); assumption.
Qed.

(** X11: the range handed to the uniform distribution, in exact real
    arithmetic, for an exponent that is 1 or has [|1 - s| >= 1] and for
    [q > -1/2].  For [n >= 1] it is not empty; for [n = 0] and [s >= 0] its
    upper end is not above its lower end, and the constructor does not
    object. *)
Theorem sampling_range (n : Z) (s q : R) (this : R_zipf) :
  exact_regime s -> -1 / 2 < q ->
  @construct R R_ops n s q = Ok this ->
  ((1 <= n)%Z -> dist_a (dist this) < dist_b (dist this))
  /\ (n = 0%Z -> 0 <= s -> dist_b (dist this) <= dist_a (dist this)).
Proof.
  intros Hr Hq Hc. apply construct_Ok_inv in Hc as [-> _].
  apply (sampling_range_members n s q); assumption.
Qed.

Lemma expxm1bx_gap (x : R) :
  x <> 0 -> Rabs x <= 2 / 100000 ->
  0 <= (exp x - 1) / x - @expxm1bx R R_ops x <= x ^ 4 / 24.
Proof.
  intros Hx Hs. rewrite (proj2 (expxm1bx_R x) Hs).
  assert (Hb : - (2 / 100000) <= x <= 2 / 100000).
  { pose proof (Rle_abs x) as Hu. pose proof (Rle_abs (- x)) as Hl.
    rewrite Rabs_Ropp in Hl. lra. }
  destruct (exp_series_remainder x ltac:(lra)) as [Hpos Hneg].
  set (E := exp x - (1 + x + x ^ 2 / 2 + x ^ 3 / 6 + x ^ 4 / 24)) in *.
  replace ((exp x - 1) / x - (1 + x / 2 + x ^ 2 / 6 + x ^ 3 / 24))
    with (E * / x) by (unfold E; field; exact Hx).
  replace (x ^ 4 / 24) with (x ^ 5 / 24 * / x) by (field; exact Hx).
  destruct (Rlt_dec 0 x) as [Hp|Hn].
  - specialize (Hpos ltac:(lra)).
    assert (0 < / x) by (apply Rinv_0_lt_compat; exact Hp).
    split; [apply Rmult_le_pos; lra|apply Rmult_le_compat_r; lra].
  - specialize (Hneg ltac:(lra)).
    assert (/ x < 0) by (apply Rinv_lt_0_compat; lra).
    split; nra.
Qed.

(** X12: the polynomial of [expxm1bx] against the quotient its other
    branch evaluates: for [0 < |x| <= 2e-5] the polynomial is below
    [(e^x - 1) / x] by at most [x^4 / 24]. *)
Theorem expxm1bx_accuracy (x : R) :
  x <> 0 -> Rabs x <= 2 / 100000 ->
  0 <= (@std_expm1 R R_ops x / x)%rt - @expxm1bx R R_ops x <= x ^ 4 / 24.
Proof.
  intros Hx Hs. rt_simpl. apply expxm1bx_gap; assumption.
Qed.

(** X13: the polynomial of [log1pxbx] against the quotient its other
    branch evaluates: for [0 < |x| <= 2e-5] the polynomial is below
    [log (1 + x) / x] by at most [x^4 / 4]. *)
Theorem log1pxbx_accuracy (x : R) :
  x <> 0 -> Rabs x <= 2 / 100000 ->
  0 <= (@std_log1p R R_ops x / x)%rt - @log1pxbx R R_ops x <= x ^ 4 / 4.
Proof.
  intros Hx Hs. rewrite (proj2 (log1pxbx_R x) Hs). rt_simpl.
  assert (Hb : - (2 / 100000) <= x <= 2 / 100000).
  { pose proof (Rle_abs x) as Hu. pose proof (Rle_abs (- x)) as Hl.
    rewrite Rabs_Ropp in Hl. lra. }
  destruct (log_series_remainder x ltac:(lra)) as [Hpos Hneg].
  set (L := ln (1 + x) - (x - x ^ 2 / 2 + x ^ 3 / 3 - x ^ 4 / 4)) in *.
  replace (ln (1 + x) / x - (1 - x / 2 + x ^ 2 / 3 - x ^ 3 / 4))
    with (L * / x) by (unfold L; field; exact Hx).
  replace (x ^ 4 / 4) with (x ^ 5 / 4 * / x) by (field; exact Hx).
  destruct (Rlt_dec 0 x) as [Hp|Hn].
  - specialize (Hpos ltac:(lra)).
    assert (0 < / x) by (apply Rinv_0_lt_compat; exact Hp).
    split; [apply Rmult_le_pos; lra|apply Rmult_le_compat_r; lra].
  - specialize (Hneg ltac:(lra)).
    assert (/ x < 0) by (apply Rinv_lt_0_compat; lra).
    split; nra.
Qed.

(** X14: the near-pole regime where the helpers call the library.  For
    [|1 - s| < 2e-5], [H x] is [((x + q)^(1 - s) - 1) / (1 - s)] when
    [|(1 - s) * log (x + q)| > 2e-5], and [H_inv y] is
    [(1 + (1 - s) * y)^(1 / (1 - s)) - q] when [|(1 - s) * y| > 2e-5]. *)
Theorem H_near_pole_library_branch
    (n : Z) (s q : R) (this : R_zipf) (x y : R) :
  Rabs (1 - s) < 2 / 100000 ->
  0 < x + q -> 2 / 100000 < Rabs ((1 - s) * ln (x + q)) ->
  0 < 1 + (1 - s) * y -> 2 / 100000 < Rabs ((1 - s) * y) ->
  @construct R R_ops n s q = Ok this ->
  H this x = (Rpower (x + q) (1 - s) - 1) / (1 - s)
  /\ H_inv this y = Rpower (1 + (1 - s) * y) (1 / (1 - s)) - q.
Proof.
  intros Hnear Hx HL Hy HY Hc. apply construct_Ok_inv in Hc as [-> _].
  destruct (near_pole_members n s q x y ltac:(lra)) as [EH EI].
  rewrite EH, EI.
  rewrite (proj1 (expxm1bx_R _) HL), (proj1 (log1pxbx_R _) HY).
  assert (Ho : 1 - s <> 0).
  { intros E. rewrite E, Rmult_0_l, Rabs_R0 in HY. lra. }
  assert (HLn : ln (x + q) <> 0).
  { intros E. rewrite E, Rmult_0_r, Rabs_R0 in HL. lra. }
  assert (Hyn : y <> 0).
  { intros E. rewrite E, Rmult_0_r, Rabs_R0 in HY. lra. }
  unfold Rpower. split.
  - field. split; assumption.
  - f_equal. f_equal. field. split; assumption.
Qed.



(** X15: both samplers use the same weights: entry [i] of the table that
    [zipf_table_distribution] builds from [(s, q)] is the value [h i] of
    the density of a [zipf_distribution] built from the same [(s, q)]. *)
Theorem table_weight_is_h
    (n m : Z) (s q : R) (table : R_zipf_table) (this : R_zipf) (i : Z) :
  (1 <= i <= n)%Z ->
  @zipf_table_distribution.construct R R_ops n s q = Ok table ->
  @construct R R_ops m s q = Ok this ->
  nth_error (zipf_table_distribution._pdf table) (Z.to_nat i)
  = Some (h this (of_int i)).
Proof.
  intros Hi Ht Hc. apply construct_Ok_inv in Hc as [-> _].
  assert (E : zipf_table_distribution._pdf table
              = fst (zipf_table_distribution.init [] n s q)).
  { rewrite construct_unfold_table in Ht. injection Ht as <-. reflexivity. }
  rewrite E, pdf_at by exact Hi.
  f_equal. unfold weight, h, h_at. cbn [_s _q init_members]. rt_simpl.
  f_equal. lra.
Qed.


Lemma half_step_below (s a : R) :
  0 <= s -> 0 < a ->
  H_exact s (a + 1 / 2) - Rpower a (- s) < H_exact s a.
Proof.
  intros Hs Ha.
  set (c := Rpower a (- s)).
  assert (Hc : 0 < c) by apply Rpower_pos.
  pose (f := fun x : R => c * x - H_exact s x).
  pose (f' := fun x : R => c * 1 - Rpower x (- s)).
  assert (Hmono : f a <= f (a + 1 / 2)).
  { apply (nondecreasing_between f f'); [lra| |].
    - intros z Hz. unfold f, f'.
      apply (derivable_pt_lim_minus (fun x => c * x) (H_exact s)).
      + apply (derivable_pt_lim_scal id c z 1). apply derivable_pt_lim_id.
      + apply H_exact_derivative. lra.
    - intros z Hz. unfold f'.
      pose proof (Rpower_neg_le a z s Hs Ha ltac:(lra)) as Hdec.
      fold c in Hdec. lra. }
  unfold f in Hmono. lra.
Qed.

Lemma cut_range_members (n : Z) (s q : R) :
  exact_regime s -> 0 <= s -> -1 / 2 < q ->
  0 < cut (@init_members R R_ops n s q) <= 1 / 2.
Proof.
  intros Hr Hs Hq.
  pose proof (init_members_cut n s q) as Hcut. cbv zeta in Hcut.
  rewrite Hcut. clear Hcut.
  pose proof (lowest_variate_range n s q Hr Hs Hq) as Hrange.
  rewrite (H_inv_member n s q _ Hr Hrange).
  rewrite lowest_variate_exact in * by assumption.
  set (thr := H_exact s (1 + q + 1 / 2) - Rpower (1 + q) (- s)) in *.
  assert (Hlo : H_exact s (1 + q - 1 / 2) <= thr).
  { pose proof (H_exact_midpoint s (1 + q) Hs ltac:(lra)). unfold thr. lra. }
  assert (Hhi : thr < H_exact s (1 + q))
    by (apply half_step_below; [exact Hs|lra]).
  assert (Hr1 : H_exact_range s (H_exact s (1 + q - 1 / 2)))
    by (apply H_exact_in_range; lra).
  assert (Hr2 : H_exact_range s (H_exact s (1 + q)))
    by (apply H_exact_in_range; lra).
  pose proof (H_inv_exact_le s _ _ Hr1 Hrange Hlo) as Ile.
  pose proof (H_inv_exact_lt s _ _ Hrange Hr2 Hhi) as Ilt.
  rewrite H_inv_exact_H in Ile by lra. rewrite H_inv_exact_H in Ilt by lra.
  lra.
Qed.

(** X17: the constant of the fast test.  In exact real arithmetic, for an
    exponent [s >= 0] that is 1 or has [|1 - s| >= 1] and for [q > -1/2],
    the member [cut] lies in [(0, 1/2]]: the fast test accepts every
    candidate that was rounded down, and no candidate rounded up by the
    full half. *)
Theorem cut_range (n : Z) (s q : R) (this : R_zipf) :
  exact_regime s -> 0 <= s -> -1 / 2 < q ->
  @construct R R_ops n s q = Ok this ->
  0 < cut this <= 1 / 2.
Proof.
  intros Hr Hs Hq Hc. apply construct_Ok_inv in Hc as [-> _].
  apply cut_range_members; assumption.
Qed.

(** X18: near the pole, where [H] multiplies [log (x + q)] by the
    polynomial of [expxm1bx]: for [0 < |1 - s| < 2e-5] and
    [t = (1 - s) * log (x + q)] with [0 < |t| <= 2e-5], the value [H x]
    differs from [((x + q)^(1 - s) - 1) / (1 - s)] by at most
    [|log (x + q)| * t^4 / 24]. *)
Theorem H_near_pole_series_error
    (n : Z) (s q : R) (this : R_zipf) (x : R) :
  Rabs (1 - s) < 2 / 100000 -> 1 - s <> 0 ->
  0 < x + q -> ln (x + q) <> 0 ->
  Rabs ((1 - s) * ln (x + q)) <= 2 / 100000 ->
  @construct R R_ops n s q = Ok this ->
  Rabs ((Rpower (x + q) (1 - s) - 1) / (1 - s) - H this x)
  <= Rabs (ln (x + q)) * ((1 - s) * ln (x + q)) ^ 4 / 24.
Proof.
  intros Hnear Ho Hx HL Ht Hc. apply construct_Ok_inv in Hc as [-> _].
  destruct (near_pole_members n s q x 0 ltac:(lra)) as [EH _]. rewrite EH.
  set (L := ln (x + q)) in *. set (t := (1 - s) * L) in *.
  assert (Htn : t <> 0).
  { unfold t. intros E. apply Rmult_integral in E. tauto. }
  pose proof (expxm1bx_gap t Htn Ht) as Hacc.
  replace ((Rpower (x + q) (1 - s) - 1) / (1 - s) - L * @expxm1bx R R_ops t)
    with (L * ((exp t - 1) / t - @expxm1bx R R_ops t)).
  2:{ unfold Rpower. fold L. replace ((1 - s) * L) with t by reflexivity.
      unfold t. field. split; assumption. }
  rewrite Rabs_mult.
  replace (Rabs L * t ^ 4 / 24) with (Rabs L * (t ^ 4 / 24))
    by (unfold Rdiv; ring).
  apply Rmult_le_compat_l; [apply Rabs_pos|].
  rewrite Rabs_pos_eq by lra. lra.
Qed.

(** ** Exponents between 0 and 2 *)





(** *** The support for exponents between 0 and 2 *)













(** ** Exponents between -1 and 0 *)

Lemma cap_midpoint (a t p : R) :
  0 < p -> p < 1 -> 0 < t -> t < a ->
  Rpower (a + t) p + Rpower (a - t) p < 2 * Rpower a p.
Proof.
  intros Hp Hp1 Ht Hta.
  set (P := fun x : R => Rpower x p).
  set (F := (comp P (fct_cte a + id) + comp P (fct_cte a - id))%F).
  set (F' := fun c : R =>
               p * Rpower (a + c) (p - 1) * (0 + 1)
               + p * Rpower (a - c) (p - 1) * (0 - 1)).
  assert (HD : forall c : R, 0 <= c <= t -> derivable_pt_lim F c (F' c)).
  { intros c Hc. unfold F, F'. apply derivable_pt_lim_plus.
    - apply derivable_pt_lim_comp.
      + apply derivable_pt_lim_plus;
          [apply derivable_pt_lim_const|apply derivable_pt_lim_id].
      + apply derivable_pt_lim_power. unfold plus_fct, fct_cte, id. lra.
    - apply derivable_pt_lim_comp.
      + apply derivable_pt_lim_minus;
          [apply derivable_pt_lim_const|apply derivable_pt_lim_id].
      + apply derivable_pt_lim_power. unfold minus_fct, fct_cte, id. lra. }
  destruct (MVT_cor2 F F' 0 t Ht HD) as [c [E Hc]].
  assert (HF' : F' c < 0).
  { unfold F'.
    pose proof (Rpower_neg_decreasing (a - c) (a + c) (1 - p)
                  ltac:(lra) ltac:(lra) ltac:(lra)) as Hd.
    replace (- (1 - p)) with (p - 1) in Hd by lra. nra. }
  assert (HF0 : F 0 = 2 * Rpower a p).
  { unfold F, P, comp, plus_fct, minus_fct, fct_cte, id.
    replace (a + 0) with a by lra. replace (a - 0) with a by lra. lra. }
  assert (HFt : F t = Rpower (a + t) p + Rpower (a - t) p) by reflexivity.
  rewrite HF0, HFt in E.
  assert (F' c * (t - 0) < 0) by nra.
  lra.
Qed.

(** For an exponent between -1 and 0 the density is concave, and its
    value at the midpoint exceeds its integral over [a - 1/2, a + 1/2]. *)
Lemma cap_integral_midpoint (a s : R) :
  -1 < s -> s < 0 -> 1 / 2 < a ->
  Rpower (a + 1 / 2) (1 - s) / (1 - s) - Rpower a (- s)
  < Rpower (a - 1 / 2) (1 - s) / (1 - s).
Proof.
  intros Hs1 Hs0 Ha.
  assert (Ho : 1 - s <> 0) by lra.
  set (o := 1 - s) in *.
  set (Z := Rpower a (- s)).
  set (P := fun x : R => Rpower x o).
  set (G := (mult_real_fct (/ o) (comp P (fct_cte a + id)%F)
             - mult_real_fct (/ o) (comp P (fct_cte a - id)%F)
             - mult_real_fct (2 * Z) id)%F).
  set (G' := fun c : R =>
               / o * (o * Rpower (a + c) (o - 1) * (0 + 1))
               - / o * (o * Rpower (a - c) (o - 1) * (0 - 1))
               - 2 * Z * 1).
  assert (HD : forall c : R, 0 <= c <= 1 / 2 -> derivable_pt_lim G c (G' c)).
  { intros c Hc. unfold G, G'.
    apply derivable_pt_lim_minus; [apply derivable_pt_lim_minus|].
    - apply derivable_pt_lim_scal. apply derivable_pt_lim_comp.
      + apply derivable_pt_lim_plus;
          [apply derivable_pt_lim_const|apply derivable_pt_lim_id].
      + apply derivable_pt_lim_power. unfold plus_fct, fct_cte, id. lra.
    - apply derivable_pt_lim_scal. apply derivable_pt_lim_comp.
      + apply derivable_pt_lim_minus;
          [apply derivable_pt_lim_const|apply derivable_pt_lim_id].
      + apply derivable_pt_lim_power. unfold minus_fct, fct_cte, id. lra.
    - apply derivable_pt_lim_scal. apply derivable_pt_lim_id. }
  destruct (MVT_cor2 G G' 0 (1 / 2) ltac:(lra) HD) as [c [E Hc]].
  assert (HG' : G' c < 0).
  { unfold G'. replace (o - 1) with (- s) by (unfold o; lra).
    pose proof (cap_midpoint a c (- s) ltac:(lra) ltac:(lra)
                  ltac:(lra) ltac:(lra)) as Hm.
    fold Z in Hm.
    replace (/ o * (o * Rpower (a + c) (- s) * (0 + 1))
             - / o * (o * Rpower (a - c) (- s) * (0 - 1)) - 2 * Z * 1)
      with (Rpower (a + c) (- s) + Rpower (a - c) (- s) - 2 * Z)
      by (field; exact Ho).
    lra. }
  assert (HG0 : G 0 = 0).
  { unfold G, P, minus_fct, mult_real_fct, comp, plus_fct, fct_cte, id.
    replace (a + 0) with a by lra. replace (a - 0) with a by lra. lra. }
  assert (HG1 : G (1 / 2)
                = Rpower (a + 1 / 2) o / o - Rpower (a - 1 / 2) o / o - Z).
  { unfold G, P, minus_fct, mult_real_fct, comp, plus_fct, fct_cte, id.
    field. exact Ho. }
  rewrite HG0, HG1 in E.
  assert (G' c * (1 / 2 - 0) < 0) by nra.
  lra.
Qed.

Lemma threshold_positive (a s : R) :
  -1 < s -> s < 0 -> (1 - s) / 2 < a ->
  0 < (Rpower (a + 1 / 2) (1 - s) / (1 - s) - Rpower a (- s)) * (1 - s).
Proof.
  intros Hs1 Hs0 Ha.
  assert (Ha0 : 0 < a) by lra.
  pose proof (bernoulli (1 / (2 * a)) (1 - s)
                ltac:(apply Rlt_le, Rdiv_lt_0_compat; lra) ltac:(lra))
    as Hb.
  pose proof (Rpower_pos a (1 - s)) as Hpa.
  pose proof (Rpower_pos a (- s)) as Hz.
  assert (Emul : Rpower a (1 - s) * Rpower (1 + 1 / (2 * a)) (1 - s)
                 = Rpower (a + 1 / 2) (1 - s)).
  { rewrite Rpower_mult_distr.
    - f_equal. field. lra.
    - exact Ha0.
    - assert (0 < 1 / (2 * a)) by (apply Rdiv_lt_0_compat; lra). lra. }
  assert (Esucc : Rpower a (1 - s) = Rpower a (- s) * a).
  { replace (1 - s) with (- s + 1) by lra. apply Rpower_succ. exact Ha0. }
  assert (Hge : Rpower a (- s) * (a + (1 - s) / 2)
                <= Rpower (a + 1 / 2) (1 - s)).
  { rewrite <- Emul.
    replace (Rpower a (- s) * (a + (1 - s) / 2))
      with (Rpower a (1 - s) * (1 + (1 - s) * (1 / (2 * a))))
      by (rewrite Esucc; field; lra).
    apply Rmult_le_compat_l; lra. }
  replace ((Rpower (a + 1 / 2) (1 - s) / (1 - s) - Rpower a (- s)) * (1 - s))
    with (Rpower (a + 1 / 2) (1 - s) - Rpower a (- s) * (1 - s))
    by (field; lra).
  assert (0 < Rpower a (- s) * (a - (1 - s) / 2))
    by (apply Rmult_lt_0_compat; lra).
  lra.
Qed.

Lemma R_round_le_zero (x : R) :
  x < 1 / 2 -> (R_to_int (R_round x) <= 0)%Z.
Proof.
  intros Hx. unfold R_round. rewrite R_to_int_IZR.
  destruct (Rle_dec 0 x) as [Hp|Hn].
  - pose proof (Zfloor_bound (x + / 2)) as [Hb _].
    assert (Hlt : IZR (Zfloor (x + / 2)) < IZR 1) by lra.
    apply lt_IZR in Hlt. lia.
  - unfold Zceil.
    assert (Hf : (0 <= Zfloor (- (x - / 2)))%Z) by (apply Zfloor_lub; lra).
    lia.
Qed.

Lemma below_support_members
    (n : Z) (s q : R) (g : @canonical_engine R) :
  -1 < s -> s < 0 -> - (1 + s) / 2 < q -> (1 <= n)%Z ->
  let this := @init_members R R_ops n s q in
  dist_a (dist this) < H this (lit 0.5)
  /\ (0 <= g O ->
      dist_a (dist this) + (dist_b (dist this) - dist_a (dist this)) * g O
      < H this (lit 0.5) ->
      exists k : Z,
        (k < min this)%Z
        /\ @operator_call R R_ops R_random 1 this g
           = Some (k, this, advance g)).
Proof.
  intros Hs1 Hs0 Hq Hn. cbv zeta.
  assert (Hr : exact_regime s).
  { right. rewrite Rabs_pos_eq; lra. }
  assert (Hq' : -1 / 2 < q) by lra.
  assert (Hne : s <> 1) by lra.
  set (this := @init_members R R_ops n s q).
  assert (Ea : dist_a (dist this)
               = Rpower (1 + q + 1 / 2) (1 - s) / (1 - s)
                 - Rpower (1 + q) (- s)).
  { unfold this. rewrite lowest_variate_exact by assumption.
    unfold H_exact. destruct (Req_dec_T s 1); [contradiction|reflexivity]. }
  assert (Eh : H this (lit 0.5) = H_exact s (1 / 2 + q)).
  { unfold this. rewrite lit_half. apply H_member; [exact Hr|lra]. }
  assert (Hlt : dist_a (dist this) < H this (lit 0.5)).
  { rewrite Ea, Eh. unfold H_exact.
    destruct (Req_dec_T s 1); [contradiction|].
    replace (1 / 2 + q) with (1 + q - 1 / 2) by lra.
    apply cap_integral_midpoint; lra. }
  split; [exact Hlt|]. intros Hg Hu.
  set (u := dist_a (dist this)
            + (dist_b (dist this) - dist_a (dist this)) * g O) in *.
  destruct (sampling_range_members n s q Hr Hq') as [Hab _].
  specialize (Hab Hn). fold this in Hab.
  assert (Hau : dist_a (dist this) <= u) by (unfold u; nra).
  assert (Hpos : 0 < dist_a (dist this) * (1 - s)).
  { rewrite Ea. apply threshold_positive; lra. }
  assert (Hra : H_exact_range s (dist_a (dist this))) by (right; exact Hpos).
  assert (Hru : H_exact_range s u) by (right; nra).
  assert (Hrh : H_exact_range s (H_exact s (1 / 2 + q)))
    by (apply H_exact_in_range; lra).
  pose proof (H_inv_exact_le s _ _ Hra Hru Hau) as Ile.
  rewrite Eh in Hu.
  pose proof (H_inv_exact_lt s _ _ Hru Hrh Hu) as Ilt.
  rewrite H_inv_exact_H in Ilt by lra.
  assert (Ex : H_inv this u = H_inv_exact s u - q)
    by (apply H_inv_member; assumption).
  assert (Ecut : cut this = 1 - (H_inv_exact s (dist_a (dist this)) - q)).
  { pose proof (init_members_cut n s q) as Hcut. cbv zeta in Hcut.
    fold this in Hcut. rewrite Hcut. f_equal.
    apply H_inv_member; assumption. }
  exists (R_to_int (R_round (H_inv this u))).
  assert (Hk : (R_to_int (R_round (H_inv this u)) <= 0)%Z).
  { apply R_round_le_zero. rewrite Ex. lra. }
  split; [unfold min; lia|].
  cbn [operator_call uniform_real_draw R_random canonical_random].
  change (dist_a (dist this)
          + (dist_b (dist this) - dist_a (dist this)) * g O)%rt with u.
  rt_simpl.
  replace (R_le _ (cut this)) with true; [reflexivity|].
  symmetry. apply R_le_spec. apply IZR_le in Hk.
  set (k := R_to_int (R_round (H_inv this u))) in *.
  rewrite Ecut, Ex. lra.
Qed.

(** X19: exponents between -1 and 0 are accepted by the constructor and
    make [operator()] leave its range.  For [-1 < s < 0],
    [q > -(1 + s) / 2] and [n >= 1] the lower end of the sampling range
    lies below [H 0.5], and every variate drawn below [H 0.5] makes the
    call return, after one turn, a value below [min()]. *)
Theorem negative_exponent_leaves_support
    (n : Z) (s q : R) (this : R_zipf) (g : @canonical_engine R) :
  -1 < s -> s < 0 -> - (1 + s) / 2 < q -> (1 <= n)%Z ->
  @construct R R_ops n s q = Ok this ->
  dist_a (dist this) < H this (lit 0.5)
  /\ (0 <= g O ->
      dist_a (dist this) + (dist_b (dist this) - dist_a (dist this)) * g O
      < H this (lit 0.5) ->
      exists k : Z,
        (k < min this)%Z
        /\ @operator_call R R_ops R_random 1 this g
           = Some (k, this, advance g)).
Proof.
  intros Hs1 Hs0 Hq Hn Hc. apply construct_Ok_inv in Hc as [-> _].
  apply (below_support_members n s q g); assumption.
Qed.

(** ** The properties at concrete samplers *)

Lemma exact_regime_two : exact_regime 2.
Proof.
  right. replace (1 - 2) with (- (1)) by lra.
  rewrite Rabs_Ropp, Rabs_R1. lra.
Qed.

Lemma two_nonnegative : 0 <= 2.
Proof. lra. Qed.

Lemma zero_above_bound : -1 / 2 < 0.
Proof. lra. Qed.

Lemma zero_engine_unit (i : nat) : 0 <= zero_engine i < 1.
Proof. unfold zero_engine. lra. Qed.

Lemma square_constructed : @construct R R_ops 8 2 0 = Ok square_zipf.
Proof. apply construct_R_ok. lra. Qed.

Lemma near_pole_constructed :
  @construct R R_ops 8 (1 - 1 / 100000) 0 = Ok near_pole_zipf.
Proof. apply construct_R_ok. lra. Qed.


Lemma square_lowest_range :
  H_exact_range 2 (dist_a (dist square_zipf)).
Proof. apply (lowest_variate_range 8 2 0 exact_regime_two); lra. Qed.

Lemma square_range : dist_a (dist square_zipf) <= dist_b (dist square_zipf).
Proof.
  left. apply (sampling_range_members 8 2 0 exact_regime_two); [lra|lia].
Qed.

Lemma square_lowest_candidate :
  to_int (std_round
            (H_inv square_zipf
               (dist_a (dist square_zipf)
                + (dist_b (dist square_zipf) - dist_a (dist square_zipf))
                  * zero_engine O))) = 1%Z.
Proof.
  apply (lowest_variate_candidate 8 2 0 zero_engine exact_regime_two);
    [lra|lra|reflexivity].
Qed.

Lemma square_lowest_fast :
  (of_int 1 - H_inv square_zipf (dist_a (dist square_zipf))
   <=? cut square_zipf)%rt = true.
Proof. exact (lowest_variate_fast 8 2 0). Qed.

Lemma one_in_domain : 0 < 1 + 0.
Proof. lra. Qed.

Lemma one_below_two : 1 < 2.
Proof. lra. Qed.

Lemma minus_two_below : -2 < -1.
Proof. lra. Qed.

Lemma minus_one_in_range : H_exact_range 2 (-1).
Proof. right. lra. Qed.

Lemma minus_two_in_range : H_exact_range 2 (-2).
Proof. right. lra. Qed.

Lemma small_nonzero : 1 / 100000 <> 0.
Proof. lra. Qed.

Lemma small_in_series : Rabs (1 / 100000) <= 2 / 100000.
Proof. rewrite Rabs_pos_eq; lra. Qed.

Lemma near_pole_exponent : Rabs (1 - (1 - 1 / 100000)) < 2 / 100000.
Proof.
  replace (1 - (1 - 1 / 100000)) with (1 / 100000) by lra.
  rewrite Rabs_pos_eq; lra.
Qed.

Lemma near_pole_nonzero : 1 - (1 - 1 / 100000) <> 0.
Proof. lra. Qed.

Lemma exp_in_domain (z : R) : 0 < exp z + 0.
Proof. pose proof (exp_pos z). lra. Qed.

Lemma near_pole_library_H :
  2 / 100000 < Rabs ((1 - (1 - 1 / 100000)) * ln (exp 3 + 0)).
Proof.
  rewrite Rplus_0_r, ln_exp.
  replace ((1 - (1 - 1 / 100000)) * 3) with (3 / 100000) by lra.
  rewrite Rabs_pos_eq; lra.
Qed.

Lemma near_pole_library_H_inv :
  2 / 100000 < Rabs ((1 - (1 - 1 / 100000)) * 3).
Proof.
  replace ((1 - (1 - 1 / 100000)) * 3) with (3 / 100000) by lra.
  rewrite Rabs_pos_eq; lra.
Qed.

Lemma near_pole_positive : 0 < 1 + (1 - (1 - 1 / 100000)) * 3.
Proof. lra. Qed.

Lemma near_pole_series_H :
  Rabs ((1 - (1 - 1 / 100000)) * ln (exp 1 + 0)) <= 2 / 100000.
Proof.
  rewrite Rplus_0_r, ln_exp.
  replace ((1 - (1 - 1 / 100000)) * 1) with (1 / 100000) by lra.
  rewrite Rabs_pos_eq; lra.
Qed.

Lemma near_pole_log_nonzero : ln (exp 1 + 0) <> 0.
Proof. rewrite Rplus_0_r, ln_exp. lra. Qed.



Lemma half_above_first :
  (lit 0.0 / accumulate (zipf_table_distribution._pdf example_table)
   <? half_engine O)%rt = true.
Proof.
  rt_simpl. apply R_lt_spec. rewrite Q2R_unfold. unfold half_engine, Rdiv.
  rewrite !Rmult_0_l. lra.
Qed.

Lemma half_not_above_one : (lit 1.0 <? half_engine O)%rt = false.
Proof.
  rt_simpl. apply R_lt_false. rewrite Q2R_unfold. unfold half_engine. lra.
Qed.

Lemma table_sampler_support_witness :
  (zipf_table_distribution.min example_table
   <= fst (fst (@zipf_table_distribution.operator_call R canonical_random
                  example_table half_engine))
   <= zipf_table_distribution.max example_table)%Z.
Proof.
  exact (@table_sampler_support R R_ops 3 2 0 example_table half_engine
           (proj1 (Z.leb_le 1 3) eq_refl) example_table_constructed
           half_above_first half_not_above_one).
Defined.

Lemma table_draw_at_zero_witness :
  0 < @accumulate R R_ops (zipf_table_distribution._pdf example_table)
  /\ fst (fst (@zipf_table_distribution.operator_call R R_random
                 example_table zero_engine))
     = 0%Z
  /\ (0 < zipf_table_distribution.min example_table)%Z.
Proof.
  exact (table_draw_at_zero 3 2 0 example_table zero_engine
           (proj1 (Z.leb_le 1 3) eq_refl) zero_above_bound eq_refl
           example_table_constructed).
Defined.


Lemma fast_accept_implies_squeeze_witness :
  (dist_a (dist square_zipf)
   >=? H square_zipf (of_int 1 + lit 0.5) - h square_zipf (of_int 1))%rt
  = true.
Proof.
  exact (fast_accept_implies_squeeze 8 2 0 square_zipf
           (dist_a (dist square_zipf)) 1
           exact_regime_two two_nonnegative zero_above_bound
           (proj1 (Z.leb_le 1 1) eq_refl) square_lowest_range
           square_constructed square_lowest_fast).
Defined.


Lemma squeeze_threshold_in_cell_witness :
  (H square_zipf (of_int 1 - lit 0.5)
   <= H square_zipf (of_int 1 + lit 0.5) - h square_zipf (of_int 1)
   < H square_zipf (of_int 1 + lit 0.5))%rt.
Proof.
  exact (squeeze_threshold_in_cell 8 2 0 square_zipf 1
           exact_regime_two zero_above_bound two_nonnegative
           (proj1 (Z.leb_le 1 1) eq_refl) square_constructed).
Defined.

Lemma candidate_one_accepted_witness :
  @operator_call R R_ops R_random 1 square_zipf zero_engine
  = Some (1%Z, square_zipf, advance zero_engine).
Proof.
  exact (candidate_one_accepted 8 2 0 square_zipf 0 zero_engine
           square_constructed square_range
           (proj1 (zero_engine_unit O)) square_lowest_candidate).
Defined.

Lemma H_inv_round_trip_witness :
  H_inv square_zipf (H square_zipf 1) = 1
  /\ H square_zipf (H_inv square_zipf (-1)) = -1.
Proof.
  exact (H_inv_round_trip 8 2 0 square_zipf 1 (-1) exact_regime_two
           one_in_domain minus_one_in_range square_constructed).
Defined.

Lemma H_strictly_increasing_witness :
  H square_zipf 1 < H square_zipf 2
  /\ H_inv square_zipf (-2) < H_inv square_zipf (-1).
Proof.
  exact (H_strictly_increasing 8 2 0 square_zipf 1 2 (-2) (-1)
           exact_regime_two one_in_domain one_below_two
           minus_two_in_range minus_one_in_range minus_two_below
           square_constructed).
Defined.

Lemma H_derivative_is_h_witness :
  derivable_pt_lim (H square_zipf) 1 (h square_zipf 1).
Proof.
  exact (H_derivative_is_h 8 2 0 square_zipf 1 exact_regime_two
           one_in_domain square_constructed).
Defined.

Lemma sampling_range_witness :
  ((1 <= 8)%Z -> dist_a (dist square_zipf) < dist_b (dist square_zipf))
  /\ (8%Z = 0%Z -> 0 <= 2 ->
      dist_b (dist square_zipf) <= dist_a (dist square_zipf)).
Proof.
  exact (sampling_range 8 2 0 square_zipf exact_regime_two
           zero_above_bound square_constructed).
Defined.

Lemma expxm1bx_accuracy_witness :
  0 <= (@std_expm1 R R_ops (1 / 100000) / (1 / 100000))%rt
       - @expxm1bx R R_ops (1 / 100000)
  <= (1 / 100000) ^ 4 / 24.
Proof.
  exact (expxm1bx_accuracy (1 / 100000) small_nonzero small_in_series).
Defined.

Lemma log1pxbx_accuracy_witness :
  0 <= (@std_log1p R R_ops (1 / 100000) / (1 / 100000))%rt
       - @log1pxbx R R_ops (1 / 100000)
  <= (1 / 100000) ^ 4 / 4.
Proof.
  exact (log1pxbx_accuracy (1 / 100000) small_nonzero small_in_series).
Defined.

Lemma H_near_pole_library_branch_witness :
  H near_pole_zipf (exp 3)
  = (Rpower (exp 3 + 0) (1 - (1 - 1 / 100000)) - 1) / (1 - (1 - 1 / 100000))
  /\ H_inv near_pole_zipf 3
     = Rpower (1 + (1 - (1 - 1 / 100000)) * 3)
         (1 / (1 - (1 - 1 / 100000))) - 0.
Proof.
  exact (H_near_pole_library_branch 8 (1 - 1 / 100000) 0 near_pole_zipf
           (exp 3) 3 near_pole_exponent (exp_in_domain 3)
           near_pole_library_H near_pole_positive near_pole_library_H_inv
           near_pole_constructed).
Defined.

Lemma table_weight_is_h_witness :
  nth_error (zipf_table_distribution._pdf example_table) (Z.to_nat 1)
  = Some (h square_zipf (of_int 1)).
Proof.
  exact (table_weight_is_h 3 8 2 0 example_table square_zipf 1
           (conj (proj1 (Z.leb_le 1 1) eq_refl)
                 (proj1 (Z.leb_le 1 3) eq_refl))
           example_table_constructed square_constructed).
Defined.


Lemma cut_range_witness : 0 < cut square_zipf <= 1 / 2.
Proof.
  exact (cut_range 8 2 0 square_zipf exact_regime_two two_nonnegative
           zero_above_bound square_constructed).
Defined.

Lemma H_near_pole_series_error_witness :
  Rabs ((Rpower (exp 1 + 0) (1 - (1 - 1 / 100000)) - 1)
        / (1 - (1 - 1 / 100000))
        - H near_pole_zipf (exp 1))
  <= Rabs (ln (exp 1 + 0))
     * ((1 - (1 - 1 / 100000)) * ln (exp 1 + 0)) ^ 4 / 24.
Proof.
  exact (H_near_pole_series_error 8 (1 - 1 / 100000) 0 near_pole_zipf
           (exp 1) near_pole_exponent near_pole_nonzero (exp_in_domain 1)
           near_pole_log_nonzero near_pole_series_H near_pole_constructed).
Defined.














Lemma concave_exponent_low : -1 < -1 / 2.
Proof. lra. Qed.

Lemma concave_exponent_high : -1 / 2 < 0.
Proof. lra. Qed.

Lemma concave_shift : - (1 + -1 / 2) / 2 < 0.
Proof. lra. Qed.

Lemma concave_constructed :
  @construct R R_ops 8 (-1 / 2) 0 = Ok concave_zipf.
Proof. apply construct_R_ok. lra. Qed.

Lemma negative_exponent_leaves_support_witness :
  dist_a (dist concave_zipf) < H concave_zipf (lit 0.5)
  /\ (0 <= zero_engine O ->
      dist_a (dist concave_zipf)
      + (dist_b (dist concave_zipf) - dist_a (dist concave_zipf))
        * zero_engine O
      < H concave_zipf (lit 0.5) ->
      exists k : Z,
        (k < min concave_zipf)%Z
        /\ @operator_call R R_ops R_random 1 concave_zipf zero_engine
           = Some (k, concave_zipf, advance zero_engine)).
Proof.
  exact (negative_exponent_leaves_support 8 (-1 / 2) 0 concave_zipf
           zero_engine concave_exponent_low concave_exponent_high
           concave_shift (proj1 (Z.leb_le 1 8) eq_refl)
           concave_constructed).
Defined.

End ExactRegime.
